(** * MaxHeap: a bounded priority queue on an array-backed binary max-heap

    Shallow embedding of [src/data_structures/heap.js] and the proofs of its
    specification.

    The JavaScript class keeps three fields: [_storage] (a reference to an
    array whose cells are references to records), [size] and [_count].  The
    records are objects, so two cells may hold the same record, and [insert]
    writes the fields of the record that sits in a cell.  The embedding
    therefore keeps an explicit memory: a store of arrays and a store of
    records, both addressed by locations, and a heap object that points into
    it.  Methods are computations in a state-and-exception monad over that
    memory. *)

From Stdlib Require Import ZArith List Lia Sorted.
From stdpp Require Import base list.

Local Open Scope Z_scope.

(** ** Values and memory *)

(** A location is an index into a store. *)
Definition loc := nat.

(** What an array cell can hold: [null] (the sentinel written by the
    constructor), [undefined] (what a read outside the array gives), or a
    reference to a record. *)
Inductive value :=
  | VNull
  | VUndefined
  | VRef (l : loc).

(** The two ways a method can stop with an exception: the [Error] thrown by
    [insert] on a full heap, and the [TypeError] JavaScript raises when a
    field is read from or written to [null] or [undefined]. *)
Inductive error :=
  | HeapFull
  | TypeError.

(** JavaScript's [<] and [>] on priorities.  A priority is a number, taken
    here to be an integer, or [undefined] ([None]), which is what the
    constructor puts into the records it allocates; a comparison with
    [undefined] is [false]. *)
Definition js_lt (a b : option Z) : bool :=
  match a, b with
  | Some x, Some y => x <? y
  | _, _ => false
  end.

Definition js_gt (a b : option Z) : bool := js_lt b a.

(** Reading [a[i]]: [undefined] outside the array. *)
Definition array_get (a : list value) (i : Z) : value :=
  if i <? 0 then VUndefined
  else default VUndefined (a !! Z.to_nat i).

(** Writing [a[i] = v]: inside the array the cell is replaced; past the end
    JavaScript extends the array, the cells in between reading [undefined];
    a negative index names a property that is no array element, so the
    cells and the length stay as they are. *)
Definition array_set (a : list value) (i : Z) (v : value) : list value :=
  if i <? 0 then a
  else if (Z.to_nat i <? length a)%nat then <[Z.to_nat i := v]> a
  else a ++ replicate (Z.to_nat i - length a) VUndefined ++ [v].

(** The heap object: [_storage] is a reference to the array. *)
Record MaxHeap := mkHeap {
  _storage : loc;
  size : Z;
  _count : Z
}.

Definition DEFAULT_SIZE : Z := 1023.

Definition _left (i : Z) : Z := 2 * i.
Definition _right (i : Z) : Z := 2 * i + 1.
Definition _parent (i : Z) : Z := i / 2.

Definition _inSizeBounds (h : MaxHeap) (i : Z) : bool :=
  (0 <? i) && (i <=? size h).

Definition _inCountBounds (h : MaxHeap) (i : Z) : bool :=
  (0 <? i) && (i <=? _count h).

Definition _isHeapFull (h : MaxHeap) : bool := _count h =? size h.

Section Model.

Context {E : Type}.

(** A record [{priority, element}]; either field may be [undefined]
    ([None]).  The element is any value of a type [E] the heap never looks
    into. *)
Record record := mkRecord {
  priority : option Z;
  element : option E
}.

Record mem := mkMem {
  arrays : list (list value);
  records : list record
}.

(** The state a method runs in: the memory and the heap object [this]. *)
Definition world : Type := mem * MaxHeap.

Inductive result (A : Type) :=
  | Ok (a : A) (w : world)
  | Throw (e : error) (w : world)
  | OutOfFuel.

Arguments Ok {A} a w.
Arguments Throw {A} e w.
Arguments OutOfFuel {A}.

Definition M (A : Type) : Type := world -> result A.

Definition ret {A} (a : A) : M A := fun w => Ok a w.

Definition bind {A B} (c : M A) (k : A -> M B) : M B :=
  fun w =>
    match c w with
    | Ok a w' => k a w'
    | Throw e w' => Throw e w'
    | OutOfFuel => OutOfFuel
    end.

Definition throw {A} (e : error) : M A := fun w => Throw e w.

Definition out_of_fuel {A} : M A := fun _ => OutOfFuel.

Notation "x <- c ;; k" := (bind c (fun x => k))
  (at level 100, c at next level, right associativity).
Notation "c ;;; k" := (bind c (fun _ => k))
  (at level 100, right associativity).

(** [this] *)
Definition this : M MaxHeap := fun w => Ok (snd w) w.

(** [this._count = c] *)
Definition set_count (c : Z) : M unit :=
  fun w =>
    Ok tt (fst w, {| _storage := _storage (snd w); size := size (snd w); _count := c |}).

(** [this._storage[i]].  The heap object always points to an array of the
    memory; were it to point nowhere, the read would be a read from
    [undefined], which raises [TypeError]. *)
Definition storage_get (i : Z) : M value :=
  fun w =>
    match arrays (fst w) !! _storage (snd w) with
    | Some a => Ok (array_get a i) w
    | None => Throw TypeError w
    end.

(** [this._storage[i] = v] *)
Definition storage_set (i : Z) (v : value) : M unit :=
  fun w =>
    match arrays (fst w) !! _storage (snd w) with
    | Some a =>
        Ok tt ({| arrays := <[_storage (snd w) := array_set a i v]> (arrays (fst w));
                  records := records (fst w) |}, snd w)
    | None => Throw TypeError w
    end.

(** Following a cell to its record; [null] and [undefined] have no fields,
    and neither has a reference to no record of the memory. *)
Definition deref (v : value) : M (loc * record) :=
  fun w =>
    match v with
    | VRef l =>
        match records (fst w) !! l with
        | Some r => Ok (l, r) w
        | None => Throw TypeError w
        end
    | _ => Throw TypeError w
    end.

(** [this._storage[i].priority] *)
Definition storage_priority (i : Z) : M (option Z) :=
  v <- storage_get i ;;
  lr <- deref v ;;
  ret (priority (snd lr)).

(** [this._storage[i].element] *)
Definition storage_element (i : Z) : M (option E) :=
  v <- storage_get i ;;
  lr <- deref v ;;
  ret (element (snd lr)).

Definition write_record (l : loc) (r : record) : M unit :=
  fun w =>
    Ok tt ({| arrays := arrays (fst w); records := <[l := r]> (records (fst w)) |}, snd w).

(** [this._storage[i].priority = p] *)
Definition storage_set_priority (i : Z) (p : Z) : M unit :=
  v <- storage_get i ;;
  lr <- deref v ;;
  write_record (fst lr) {| priority := Some p; element := element (snd lr) |}.

(** [this._storage[i].element = e] *)
Definition storage_set_element (i : Z) (e : option E) : M unit :=
  v <- storage_get i ;;
  lr <- deref v ;;
  write_record (fst lr) {| priority := priority (snd lr); element := e |}.

(** ** The private methods *)

Definition _swap (i j : Z) : M unit :=
  temp <- storage_get i ;;
  vj <- storage_get j ;;
  storage_set i vj ;;;
  storage_set j temp.

(** The loop of [_float]: [i] is the cell that floats, [p] its parent. *)
Fixpoint float_loop (fuel : nat) (i p : Z) : M unit :=
  match fuel with
  | O => out_of_fuel
  | S fuel' =>
      h <- this ;;
      if _inSizeBounds h p then
        pi <- storage_priority i ;;
        pp <- storage_priority p ;;
        if js_gt pi pp then
          _swap i p ;;;
          float_loop fuel' p (_parent p)
        else ret tt
      else ret tt
  end.

(** Every turn of the loop at least halves a positive [i], so [i] turns
    plus one are enough. *)
Definition _float (i : Z) : M unit :=
  float_loop (S (Z.to_nat i)) i (_parent i).

(** One of the two tests of [_sink] that move [max] to a child [c]. *)
Definition sink_pick (max c : Z) : M Z :=
  h <- this ;;
  if _inCountBounds h c then
    pm <- storage_priority max ;;
    pc <- storage_priority c ;;
    ret (if js_lt pm pc then c else max)
  else ret max.

(** The index [max] that one turn of the loop of [_sink] computes: first
    the test against the left child, then the test against the right. *)
Definition sink_max (i : Z) : M Z :=
  let l := _left i in
  let r := _right i in
  max <- sink_pick i l ;;
  sink_pick max r.

(** The loop of [_sink]; it runs until [isValidMaxHeap] is set. *)
Fixpoint sink_loop (fuel : nat) (i : Z) : M unit :=
  match fuel with
  | O => out_of_fuel
  | S fuel' =>
      max <- sink_max i ;;
      if max =? i then ret tt
      else
        _swap i max ;;;
        sink_loop fuel' max
  end.

(** Every turn of the loop moves [i] to a larger index inside the count, so
    [_count - i] turns plus one are enough. *)
Definition _sink (i : Z) : M unit :=
  h <- this ;;
  sink_loop (S (Z.to_nat (_count h - i))) i.

(** [for (let i = midpoint; i >= 1; i--) this._sink(i)], with [n] the value
    of [i]. *)
Fixpoint buildheap_loop (n : nat) : M unit :=
  match n with
  | O => ret tt
  | S n' => _sink (Z.of_nat n) ;;; buildheap_loop n'
  end.

Definition _buildheap : M unit :=
  h <- this ;;
  let midpoint := _count h / 2 in
  buildheap_loop (Z.to_nat midpoint).

(** ** The constructor *)

(** [for (let i = 1; i <= size; i += 1) this._storage.push({...})]: each turn
    allocates one fresh record and appends a reference to it. *)
Fixpoint push_slots (n : nat) (rs : list record) (storage : list value)
  : list record * list value :=
  match n with
  | O => (rs, storage)
  | S n' =>
      push_slots n'
        (rs ++ [{| priority := None; element := None |}])
        (storage ++ [VRef (length rs)])
  end.

(** [new MaxHeap({ size, fromArray })].  [fromArray], when given, is adopted
    as the storage; otherwise a new array is allocated, and [size] defaults
    to [DEFAULT_SIZE]. *)
Definition constructor (size_opt : option Z) (fromArray : option loc) (m : mem)
  : result unit :=
  let size := default DEFAULT_SIZE size_opt in
  match fromArray with
  | Some a =>
      match arrays m !! a with
      | Some cells =>
          let sz := Z.of_nat (length cells) - 1 in
          _buildheap (m, {| _storage := a; size := sz; _count := sz |})
      | None => Throw TypeError (m, {| _storage := a; size := 0; _count := 0 |})
      end
  | None =>
      let '(rs, storage) := push_slots (Z.to_nat size) (records m) [VNull] in
      Ok tt ({| arrays := arrays m ++ [storage]; records := rs |},
             {| _storage := length (arrays m); size := size; _count := 0 |})
  end.

(** ** The public methods *)

Definition insert (p : Z) (e : option E) : M unit :=
  h <- this ;;
  let i := _count h + 1 in
  if negb (_inSizeBounds h i) then throw HeapFull
  else
    storage_set_priority i p ;;;
    storage_set_element i e ;;;
    _float i ;;;
    h' <- this ;;
    set_count (_count h' + 1).

Definition removeMax : M (option E) :=
  h <- this ;;
  if _count h =? 0 then ret None
  else
    let root := 1 in
    let last := _count h in
    _swap root last ;;;
    set_count (_count h - 1) ;;;
    _sink root ;;;
    storage_element last.

Definition count : M Z :=
  h <- this ;;
  ret (_count h).

(** [for (let i = 0; i < count; i += 1) this.removeMax()] *)
Fixpoint removeMax_times (n : nat) : M unit :=
  match n with
  | O => ret tt
  | S n' => removeMax ;;; removeMax_times n'
  end.

Definition sort : M loc :=
  h <- this ;;
  let count := _count h in
  removeMax_times (Z.to_nat count) ;;;
  h' <- this ;;
  ret (_storage h').

(** [static heapsort(array)]: the heap object is local to the call. *)
Definition heapsort (array : loc) (m : mem) : result unit :=
  match constructor None (Some array) m with
  | Ok _ w =>
      match sort w with
      | Ok _ w' => Ok tt w'
      | Throw e w' => Throw e w'
      | OutOfFuel => OutOfFuel
      end
  | Throw e w => Throw e w
  | OutOfFuel => OutOfFuel
  end.

End Model.

Arguments record : clear implicits.
Arguments mem : clear implicits.
Arguments world : clear implicits.
Arguments result : clear implicits.
Arguments M : clear implicits.
Arguments mkRecord {E} priority element.
Arguments mkMem {E} arrays records.
Arguments Ok {E A} a w.
Arguments Throw {E A} e w.
Arguments OutOfFuel {E A}.

(** ** What the specification talks about *)

(** The array after [_swap(i, j)]. *)
Definition swap_cells (a : list value) (i j : Z) : list value :=
  array_set (array_set a i (array_get a j)) j (array_get a i).

(** [swapped lo hi a a']: [a'] comes from [a] by exchanging cells whose
    indices lie in [lo..hi]. *)
Inductive swapped (lo hi : Z) : list value -> list value -> Prop :=
  | swapped_refl a : swapped lo hi a a
  | swapped_step a i j a' :
      lo <= i <= hi -> lo <= j <= hi ->
      0 <= i < Z.of_nat (length a) -> 0 <= j < Z.of_nat (length a) ->
      swapped lo hi (swap_cells a i j) a' ->
      swapped lo hi a a'.

(** [p >= q] on priorities as the specification reads it: both are numbers. *)
Definition prio_ge (p q : option Z) : Prop :=
  match p, q with
  | Some x, Some y => y <= x
  | _, _ => False
  end.

Section Properties.

Context {E : Type}.

Implicit Types (m : mem E) (w : world E) (rs : list (record E)).
Implicit Types (a : list value) (v : value).

(** The array [this._storage] points to. *)
Definition storage_of w : list value :=
  default [] (arrays (fst w) !! _storage (snd w)).

Definition with_storage w a : world E :=
  ({| arrays := <[_storage (snd w) := a]> (arrays (fst w));
      records := records (fst w) |}, snd w).

Definition with_count w (c : Z) : world E :=
  (fst w, {| _storage := _storage (snd w); size := size (snd w); _count := c |}).

Definition with_records w rs : world E :=
  ({| arrays := arrays (fst w); records := rs |}, snd w).

(** The record a cell refers to, and its priority. *)
Definition record_at rs v : option (record E) :=
  match v with
  | VRef l => rs !! l
  | _ => None
  end.

Definition prio_at rs v : option Z :=
  match record_at rs v with
  | Some r => priority r
  | None => None
  end.

(** [storage[i].priority] in a world. *)
Definition prio w (i : Z) : option Z :=
  prio_at (records (fst w)) (array_get (storage_of w) i).

(** The max-heap invariant of the specification. *)
Definition heap_property w : Prop :=
  forall i, 1 <= i <= _count (snd w) ->
    (_left i <= _count (snd w) -> prio_ge (prio w i) (prio w (_left i))) /\
    (_right i <= _count (snd w) -> prio_ge (prio w i) (prio w (_right i))).

(** The numeric key of a cell, used where the cell is known to hold a
    record with a number for priority. *)
Definition kz rs a (i : Z) : Z := default 0 (prio_at rs (array_get a i)).

Definition valid_cells rs a (n : Z) : Prop :=
  forall k, 1 <= k <= n -> is_Some (record_at rs (array_get a k)).

Definition numeric_cells rs a (n : Z) : Prop :=
  forall k, 1 <= k <= n -> is_Some (prio_at rs (array_get a k)).

(** The cells [1..n] hold pairwise different values: no record object
    sits in two cells. *)
Definition distinct_cells a (n : Z) : Prop :=
  forall i j, 1 <= i <= n -> 1 <= j <= n ->
    array_get a i = array_get a j -> i = j.

(** The index one turn of [_sink] picks, as a function of the count [n]
    and of the priorities [f] of the cells. *)
Definition pick (n : Z) (f : Z -> option Z) (max c : Z) : Z :=
  if (0 <? c) && (c <=? n) && js_lt (f max) (f c) then c else max.

Definition max_of (n : Z) (f : Z -> option Z) (i : Z) : Z :=
  pick n f (pick n f i (_left i)) (_right i).

(** Heap order on the keys [f] of the cells [lo..n]: every parent [p]
    from [lo] on is not below its children [c] inside the count. *)
Definition heap_from (f : Z -> Z) (n lo : Z) : Prop :=
  forall p c, lo <= p -> 2 * p <= c <= 2 * p + 1 -> c <= n -> f c <= f p.

(** What holds while cell [i] sinks: every parent but [i] is in order
    with its children, and the parent of [i] is not below the children of
    [i]. *)
Definition sink_pre (f : Z -> Z) (n lo i : Z) : Prop :=
  (forall p c, lo <= p -> p <> i -> 2 * p <= c <= 2 * p + 1 -> c <= n ->
     f c <= f p) /\
  (forall p c, lo <= p -> 2 * p <= i <= 2 * p + 1 ->
     2 * i <= c <= 2 * i + 1 -> c <= n -> f c <= f p).

(** What holds while cell [i] floats: every child but [i] is in order
    with its parent, and the parent of [i] is not below the children of
    [i]. *)
Definition float_pre (f : Z -> Z) (n i : Z) : Prop :=
  (forall p c, 1 <= p -> c <> i -> 2 * p <= c <= 2 * p + 1 -> c <= n ->
     f c <= f p) /\
  (forall p c, 1 <= p -> 2 * p <= i <= 2 * p + 1 ->
     2 * i <= c <= 2 * i + 1 -> c <= n -> f c <= f p).

(** What holds while [sort] drains a heap that had [N] records and has [n]
    left: the cells [n+1..N] are in ascending order and none of them is
    below a cell that is still in the heap. *)
Definition sorted_tail (f : Z -> Z) (n N : Z) : Prop :=
  (forall i j, n < i -> i <= j -> j <= N -> f i <= f j) /\
  (forall i j, 1 <= i <= n -> n < j <= N -> f i <= f j).

(** The shape every heap has: the storage array has [size + 1] cells, the
    cells [1..size] refer to records, and the count is within the size. *)
Definition wf w : Prop :=
  exists a,
    arrays (fst w) !! _storage (snd w) = Some a /\
    Z.of_nat (length a) = size (snd w) + 1 /\
    0 <= _count (snd w) <= size (snd w) /\
    valid_cells (records (fst w)) a (size (snd w)).

(** A heap whose live cells carry numbers in heap order. *)
Definition valid w : Prop :=
  exists a,
    arrays (fst w) !! _storage (snd w) = Some a /\
    Z.of_nat (length a) = size (snd w) + 1 /\
    0 <= _count (snd w) <= size (snd w) /\
    valid_cells (records (fst w)) a (size (snd w)) /\
    numeric_cells (records (fst w)) a (_count (snd w)) /\
    heap_from (kz (records (fst w)) a) (_count (snd w)) 1.

(** A valid heap no record of which sits in two cells. *)
Definition valid_distinct w : Prop :=
  valid w /\ distinct_cells (storage_of w) (size (snd w)).

(** An array as [fromArray] and [heapsort] expect it: a sentinel cell at
    index 0, then cells that refer to records with a number for priority. *)
Definition record_array rs a : Prop :=
  (1 <= length a)%nat /\ numeric_cells rs a (Z.of_nat (length a) - 1).

(** A record array no record of which sits in two cells. *)
Definition distinct_record_array rs a : Prop :=
  record_array rs a /\ distinct_cells a (Z.of_nat (length a) - 1).

(** The heaps the public operations can produce, from a constructor call
    on: [P] says which arrays [fromArray] is given. *)
Inductive reachable (P : list (record E) -> list value -> Prop) : world E -> Prop :=
  | reach_new sz m w :
      0 <= default DEFAULT_SIZE sz ->
      constructor sz None m = Ok tt w ->
      reachable P w
  | reach_fromArray sz m arr cells w :
      arrays m !! arr = Some cells ->
      P (records m) cells ->
      constructor sz (Some arr) m = Ok tt w ->
      reachable P w
  | reach_insert w p e w' :
      reachable P w -> insert p e w = Ok tt w' -> reachable P w'
  | reach_insert_throw w p e err w' :
      reachable P w -> insert p e w = Throw err w' -> reachable P w'
  | reach_removeMax w x w' :
      reachable P w -> removeMax w = Ok x w' -> reachable P w'
  | reach_sort w l w' :
      reachable P w -> sort w = Ok l w' -> reachable P w'.

(** The world an operation leaves behind, whether it returns or throws. *)
Definition after {A} (r : result E A) : option (world E) :=
  match r with
  | Ok _ w' => Some w'
  | Throw _ w' => Some w'
  | OutOfFuel => None
  end.

(** What no public operation changes: which array is the storage, the
    size, how many arrays and records the memory holds, how many cells the
    storage has; and the cells stay the same up to their order. *)
Definition same_slots w w' : Prop :=
  _storage (snd w') = _storage (snd w) /\
  size (snd w') = size (snd w) /\
  length (arrays (fst w')) = length (arrays (fst w)) /\
  length (records (fst w')) = length (records (fst w)) /\
  Z.of_nat (length (storage_of w')) = size (snd w) + 1 /\
  storage_of w' ≡ₚ storage_of w.

(** A computation that ends, by returning or by throwing, and leaves the
    fields of the heap object as they were. *)
Definition keeps_heap {A} (c : M E A) : Prop :=
  forall w,
    match c w with
    | Ok _ w' => snd w' = snd w
    | Throw _ w' => snd w' = snd w
    | OutOfFuel => False
    end.

(** A computation that ends. *)
Definition terminates {A} (c : M E A) : Prop :=
  forall w, c w <> OutOfFuel.

(** Running a method in the world a call left. *)
Definition and_then {A B} (r : result E A) (k : M E B) : result E B :=
  match r with
  | Ok _ w => k w
  | Throw e w => Throw e w
  | OutOfFuel => OutOfFuel
  end.

(** A sequence of [insert] calls. *)
Fixpoint insert_all (ps : list (Z * option E)) : M E unit :=
  match ps with
  | [] => ret tt
  | pe :: ps' => bind (insert (fst pe) (snd pe)) (fun _ => insert_all ps')
  end.

(** Up to [k] successive [removeMax] calls on a heap that is not empty.
    Each call returns the element of the record it leaves in the cell just
    past the new count; that element is listed with the priority of the
    same record. *)
Fixpoint drain (k : nat) : M E (list (option E * option Z)) :=
  match k with
  | O => ret []
  | S k' =>
      bind this (fun h =>
        if _count h =? 0 then ret []
        else
          bind removeMax (fun e =>
          bind (storage_priority (_count h)) (fun p =>
          bind (drain k') (fun rest =>
          ret ((e, p) :: rest)))))
  end.

(** [k, k-1, ..., 1] *)
Fixpoint countdown (k : nat) : list Z :=
  match k with
  | O => []
  | S k' => Z.of_nat k :: countdown k'
  end.

(** [_sink] called on each index of a list in turn. *)
Fixpoint sink_all (l : list Z) : M E unit :=
  match l with
  | [] => ret tt
  | i :: l' => bind (_sink i) (fun _ => sink_all l')
  end.

(** *** The worlds of the examples *)

Definition empty_mem : mem E := {| arrays := []; records := [] |}.

(** A record with priority [p] and no element. *)
Definition rec_of (p : Z) : record E := {| priority := Some p; element := None |}.

(** The array [[_, {p:5}, {p:1}, {p:9}, {p:3}]]. *)
Definition mem_5193 : mem E :=
  {| arrays := [[VNull; VRef 0%nat; VRef 1%nat; VRef 2%nat; VRef 3%nat]];
     records := [rec_of 5; rec_of 1; rec_of 9; rec_of 3] |}.

(** The array [[_, {p:3}, {p:1}, {p:2}]]. *)
Definition mem_312 : mem E :=
  {| arrays := [[VNull; VRef 0%nat; VRef 1%nat; VRef 2%nat]];
     records := [rec_of 3; rec_of 1; rec_of 2] |}.

(** The array [[_, c, d, c]] with [c = {p:10}] and [d = {p:8}]: the record
    [c] sits in the cells 1 and 3. *)
Definition mem_aliased : mem E :=
  {| arrays := [[VNull; VRef 0%nat; VRef 1%nat; VRef 0%nat]];
     records := [rec_of 10; rec_of 8] |}.

(** A heap of three records with priorities 1, 5, 5 whose root is out of
    place: both children carry the same priority. *)
Definition world_tie : world E :=
  ({| arrays := [[VNull; VRef 0%nat; VRef 1%nat; VRef 2%nat]];
      records := [rec_of 1; rec_of 5; rec_of 5] |},
   {| _storage := 0%nat; size := 3; _count := 3 |}).

(** An empty heap of capacity 4, as the constructor makes it. *)
Definition world_empty : world E :=
  ({| arrays := [[VNull; VRef 0%nat; VRef 1%nat; VRef 2%nat; VRef 3%nat]];
      records := replicate 4 {| priority := None; element := None |} |},
   {| _storage := 0%nat; size := 4; _count := 0 |}).

(** That heap after [insert] with the priorities 5, 3, 8, 1 (and no
    element). *)
Definition world_5381 : world E :=
  ({| arrays := [[VNull; VRef 2%nat; VRef 1%nat; VRef 0%nat; VRef 3%nat]];
      records := [rec_of 5; rec_of 3; rec_of 8; rec_of 1] |},
   {| _storage := 0%nat; size := 4; _count := 4 |}).

(** A heap of capacity 3 that holds two records, with priorities 7, 4. *)
Definition world_room : world E :=
  ({| arrays := [[VNull; VRef 0%nat; VRef 1%nat; VRef 2%nat]];
      records := [rec_of 7; rec_of 4; {| priority := None; element := None |}] |},
   {| _storage := 0%nat; size := 3; _count := 2 |}).

(** A memory whose only array is empty: it has no sentinel. *)
Definition mem_no_sentinel : mem E := {| arrays := [[]]; records := [] |}.

(** A full heap of two records with priorities 7, 4. *)
Definition world_full : world E :=
  ({| arrays := [[VNull; VRef 0%nat; VRef 1%nat]];
      records := [rec_of 7; rec_of 4] |},
   {| _storage := 0%nat; size := 2; _count := 2 |}).

(** The element and the priority of the record a cell refers to. *)
Definition entry_at rs v : option E * option Z :=
  match record_at rs v with
  | Some r => (element r, priority r)
  | None => (None, None)
  end.

(** The cells [1..count] of the storage, and the records they refer to. *)
Definition live_cells w : list value :=
  take (Z.to_nat (_count (snd w))) (drop 1 (storage_of w)).

Definition live_records w : list (option (record E)) :=
  map (record_at (records (fst w))) (live_cells w).

End Properties.

(** ** Arrays *)

Section Arrays.

Implicit Types (a : list value) (v : value).

Lemma array_get_lookup a i :
  0 <= i < Z.of_nat (length a) ->
  a !! Z.to_nat i = Some (array_get a i).
Proof.
  intros Hi. unfold array_get.
  destruct (Z.ltb_spec i 0); [lia|].
  destruct (lookup_lt_is_Some_2 a (Z.to_nat i)) as [v Hv]; [lia|].
  by rewrite Hv.
Qed.

Lemma array_set_inside a i v :
  0 <= i < Z.of_nat (length a) ->
  array_set a i v = <[Z.to_nat i := v]> a.
Proof.
  intros Hi. unfold array_set.
  destruct (Z.ltb_spec i 0); [lia|].
  destruct (Nat.ltb_spec (Z.to_nat i) (length a)); [done|lia].
Qed.

Lemma length_array_set a i v :
  0 <= i < Z.of_nat (length a) ->
  length (array_set a i v) = length a.
Proof. intros Hi. rewrite array_set_inside by done. apply length_insert. Qed.

Lemma array_get_set a i v k :
  0 <= i < Z.of_nat (length a) ->
  array_get (array_set a i v) k = if decide (k = i) then v else array_get a k.
Proof.
  intros Hi. rewrite array_set_inside by done. unfold array_get.
  destruct (Z.ltb_spec k 0).
  - case_decide; [lia|done].
  - case_decide as Hk.
    + subst k. rewrite list_lookup_insert_eq by lia. done.
    + rewrite list_lookup_insert_ne by lia. done.
Qed.

Lemma length_swap_cells a i j :
  0 <= i < Z.of_nat (length a) -> 0 <= j < Z.of_nat (length a) ->
  length (swap_cells a i j) = length a.
Proof.
  intros Hi Hj. unfold swap_cells.
  rewrite length_array_set; rewrite length_array_set; done.
Qed.

Lemma array_get_swap_cells a i j k :
  0 <= i < Z.of_nat (length a) -> 0 <= j < Z.of_nat (length a) ->
  array_get (swap_cells a i j) k =
    if decide (k = j) then array_get a i
    else if decide (k = i) then array_get a j
    else array_get a k.
Proof.
  intros Hi Hj. unfold swap_cells.
  rewrite array_get_set by (rewrite length_array_set; done).
  case_decide; [done|]. by rewrite array_get_set.
Qed.

Lemma swap_cells_Permutation a i j :
  0 <= i < Z.of_nat (length a) -> 0 <= j < Z.of_nat (length a) ->
  swap_cells a i j ≡ₚ a.
Proof.
  intros Hi Hj. unfold swap_cells.
  rewrite (array_set_inside a i) by done.
  rewrite array_set_inside by (rewrite length_insert; done).
  apply Permutation_insert_swap; by apply array_get_lookup.
Qed.

Lemma swapped_trans lo hi a b c :
  swapped lo hi a b -> swapped lo hi b c -> swapped lo hi a c.
Proof.
  induction 1 as [|a i j b ? ? ? ? _ IH]; [done|].
  intros Hbc. apply (swapped_step lo hi a i j c); auto.
Qed.

Lemma swapped_weaken lo hi lo' hi' a b :
  lo' <= lo -> hi <= hi' -> swapped lo hi a b -> swapped lo' hi' a b.
Proof.
  intros Hlo Hhi. induction 1 as [|a i j b ? ? ? ? _ IH]; [constructor|].
  apply (swapped_step lo' hi' a i j b); auto; lia.
Qed.

Lemma swapped_once lo hi a i j :
  lo <= i <= hi -> lo <= j <= hi ->
  0 <= i < Z.of_nat (length a) -> 0 <= j < Z.of_nat (length a) ->
  swapped lo hi a (swap_cells a i j).
Proof. intros. apply (swapped_step lo hi a i j); auto. constructor. Qed.

Lemma swapped_length lo hi a b : swapped lo hi a b -> length b = length a.
Proof.
  induction 1 as [|a i j b ? ? ? ? _ IH]; [done|].
  rewrite IH. by apply length_swap_cells.
Qed.

Lemma swapped_Permutation lo hi a b : swapped lo hi a b -> b ≡ₚ a.
Proof.
  induction 1 as [|a i j b ? ? ? ? _ IH]; [done|].
  rewrite IH. by apply swap_cells_Permutation.
Qed.

(** Cells outside the range are not touched. *)
Lemma swapped_outside lo hi a b k :
  swapped lo hi a b -> ~ (lo <= k <= hi) -> array_get b k = array_get a k.
Proof.
  induction 1 as [|a i j b ? ? ? ? _ IH]; [done|].
  intros Hk. rewrite IH by done. rewrite array_get_swap_cells by done.
  repeat case_decide; try lia. done.
Qed.

(** Every cell of the range comes from a cell of the range. *)
Lemma swapped_inside lo hi a b k :
  swapped lo hi a b -> lo <= k <= hi ->
  exists k', lo <= k' <= hi /\ array_get b k = array_get a k'.
Proof.
  induction 1 as [|a i j b ? ? ? ? _ IH]; [by eauto|].
  intros Hk. destruct (IH Hk) as (k' & Hk' & ->).
  rewrite array_get_swap_cells by done.
  repeat case_decide; eauto.
Qed.

Lemma swapped_Forall lo hi a b (P : value -> Prop) :
  swapped lo hi a b ->
  (forall k, lo <= k <= hi -> P (array_get a k)) ->
  forall k, lo <= k <= hi -> P (array_get b k).
Proof.
  intros Hs HP k Hk. destruct (swapped_inside _ _ _ _ _ Hs Hk) as (k' & Hk' & ->).
  by apply HP.
Qed.

(** Every cell of the range goes to a cell of the range. *)
Lemma swapped_inside_rev lo hi a b k :
  swapped lo hi a b -> lo <= k <= hi ->
  exists k', lo <= k' <= hi /\ array_get a k = array_get b k'.
Proof.
  intros Hs. revert k.
  induction Hs as [|a i j b Hi Hj Hil Hjl _ IH]; intros k Hk; [by eauto|].
  assert (exists k1, lo <= k1 <= hi /\ array_get a k = array_get (swap_cells a i j) k1)
    as (k1 & Hk1 & ->).
  { destruct (decide (k = i)) as [->|Hki].
    - exists j. split; [done|]. rewrite array_get_swap_cells by done.
      by rewrite decide_True.
    - destruct (decide (k = j)) as [->|Hkj].
      + exists i. split; [done|]. rewrite array_get_swap_cells by done.
        case_decide; [by subst|]. by rewrite decide_True.
      + exists k. split; [done|]. rewrite array_get_swap_cells by done.
        by rewrite !decide_False. }
  by apply IH.
Qed.

(** Exchanging cells inside a window permutes the window. *)
Lemma swap_cells_window a i j (lo k : nat) :
  Z.of_nat lo <= i < Z.of_nat (lo + k) -> Z.of_nat lo <= j < Z.of_nat (lo + k) ->
  i < Z.of_nat (length a) -> j < Z.of_nat (length a) ->
  take k (drop lo (swap_cells a i j)) ≡ₚ take k (drop lo a).
Proof.
  intros Hi Hj Hil Hjl. unfold swap_cells.
  rewrite (array_set_inside a i) by lia.
  rewrite array_set_inside by (rewrite length_insert; lia).
  rewrite !drop_insert_ge by lia. rewrite !take_insert_lt by lia.
  apply Permutation_insert_swap.
  - rewrite lookup_take_lt, lookup_drop by lia.
    replace (lo + (Z.to_nat i - lo))%nat with (Z.to_nat i) by lia.
    apply array_get_lookup. lia.
  - rewrite lookup_take_lt, lookup_drop by lia.
    replace (lo + (Z.to_nat j - lo))%nat with (Z.to_nat j) by lia.
    apply array_get_lookup. lia.
Qed.

Lemma swapped_window lo hi a b (lo' k : nat) :
  Z.of_nat lo' <= lo -> hi < Z.of_nat (lo' + k) ->
  swapped lo hi a b ->
  take k (drop lo' b) ≡ₚ take k (drop lo' a).
Proof.
  intros Hlo Hhi. induction 1 as [|a i j b Hi Hj Hil Hjl _ IH]; [done|].
  rewrite IH. apply swap_cells_window; lia.
Qed.

(** The cells after the sentinel, as a multiset. *)
Lemma swapped_tail n a b :
  swapped 1 n a b -> drop 1 b ≡ₚ drop 1 a.
Proof.
  intros Hs.
  rewrite <- (take_ge (drop 1 b) (length a)), <- (take_ge (drop 1 a) (length a)).
  - destruct (decide (n < Z.of_nat (1 + length a))) as [Hn|Hn].
    + by apply (swapped_window 1 n).
    + apply (swapped_window 1 (Z.of_nat (length a))); [lia|lia|].
      clear Hn. induction Hs as [|a i j b Hi Hj Hil Hjl _ IH]; [constructor|].
      apply (swapped_step _ _ a i j); [lia|lia|done|done|].
      rewrite <- (length_swap_cells a i j) by done. apply IH.
  - rewrite length_drop. lia.
  - rewrite length_drop, (swapped_length _ _ _ _ Hs). lia.
Qed.

End Arrays.

(** ** The monad and the primitive steps *)

Section Steps.

Context {E : Type}.

Implicit Types (m : mem E) (w : world E) (rs : list (record E)).
Implicit Types (a : list value) (v : value).

Lemma with_storage_lookup w a a' :
  arrays (fst w) !! _storage (snd w) = Some a ->
  arrays (fst (with_storage w a')) !! _storage (snd (with_storage w a')) = Some a'.
Proof.
  intros Ha. simpl. apply list_lookup_insert_eq. by eapply lookup_lt_Some.
Qed.

Lemma with_storage_twice w a1 a2 :
  with_storage (with_storage w a1) a2 = with_storage w a2.
Proof. unfold with_storage. simpl. by rewrite list_insert_insert_eq. Qed.

Lemma with_storage_id w a :
  arrays (fst w) !! _storage (snd w) = Some a -> with_storage w a = w.
Proof.
  intros Ha. destruct w as [[ars rs] h]. unfold with_storage. simpl in *.
  by rewrite list_insert_id.
Qed.

Lemma storage_of_lookup w a :
  arrays (fst w) !! _storage (snd w) = Some a -> storage_of w = a.
Proof. intros Ha. unfold storage_of. by rewrite Ha. Qed.

Lemma storage_get_ok w a i :
  arrays (fst w) !! _storage (snd w) = Some a ->
  storage_get i w = Ok (array_get a i) w.
Proof. intros Ha. unfold storage_get. by rewrite Ha. Qed.

Lemma storage_set_ok w a i v :
  arrays (fst w) !! _storage (snd w) = Some a ->
  storage_set i v w = Ok tt (with_storage w (array_set a i v)).
Proof. intros Ha. unfold storage_set. by rewrite Ha. Qed.

Lemma _swap_ok w a i j :
  arrays (fst w) !! _storage (snd w) = Some a ->
  _swap i j w = Ok tt (with_storage w (swap_cells a i j)).
Proof.
  intros Ha. unfold _swap, bind.
  rewrite !(storage_get_ok w a) by done.
  rewrite (storage_set_ok w a) by done.
  erewrite storage_set_ok by (by eapply with_storage_lookup).
  by rewrite with_storage_twice.
Qed.

Lemma deref_ok w v r :
  record_at (records (fst w)) v = Some r ->
  exists l, v = VRef l /\ deref v w = Ok (l, r) w.
Proof.
  destruct v as [| |l]; simpl; try done.
  intros Hr. exists l. unfold deref. by rewrite Hr.
Qed.

Lemma storage_priority_ok w a i :
  arrays (fst w) !! _storage (snd w) = Some a ->
  is_Some (record_at (records (fst w)) (array_get a i)) ->
  storage_priority i w = Ok (prio_at (records (fst w)) (array_get a i)) w.
Proof.
  intros Ha [r Hr]. unfold storage_priority, bind.
  rewrite (storage_get_ok w a) by done.
  destruct (deref_ok w _ r Hr) as (l & _ & ->).
  unfold ret, prio_at. by rewrite Hr.
Qed.

Lemma storage_element_ok w a i r :
  arrays (fst w) !! _storage (snd w) = Some a ->
  record_at (records (fst w)) (array_get a i) = Some r ->
  storage_element i w = Ok (element r) w.
Proof.
  intros Ha Hr. unfold storage_element, bind.
  rewrite (storage_get_ok w a) by done.
  by destruct (deref_ok w _ r Hr) as (l & _ & ->).
Qed.

Lemma numeric_valid rs a n : numeric_cells rs a n -> valid_cells rs a n.
Proof.
  intros Hn k Hk. destruct (Hn k Hk) as [z Hz]. unfold prio_at in Hz.
  destruct (record_at rs (array_get a k)); [by eauto|done].
Qed.

Lemma prio_at_kz rs a k :
  is_Some (prio_at rs (array_get a k)) ->
  prio_at rs (array_get a k) = Some (kz rs a k).
Proof. intros [z Hz]. unfold kz. by rewrite Hz. Qed.

Lemma kz_swap_cells rs a i j k :
  0 <= i < Z.of_nat (length a) -> 0 <= j < Z.of_nat (length a) ->
  kz rs (swap_cells a i j) k =
    if decide (k = j) then kz rs a i
    else if decide (k = i) then kz rs a j
    else kz rs a k.
Proof.
  intros Hi Hj. unfold kz. rewrite array_get_swap_cells by done.
  by repeat case_decide.
Qed.

Lemma sink_pick_ok w a max c :
  arrays (fst w) !! _storage (snd w) = Some a ->
  (0 < c <= _count (snd w) ->
   is_Some (record_at (records (fst w)) (array_get a max)) /\
   is_Some (record_at (records (fst w)) (array_get a c))) ->
  sink_pick max c w =
    Ok (pick (_count (snd w))
          (fun k => prio_at (records (fst w)) (array_get a k)) max c) w.
Proof.
  intros Ha Hv. unfold sink_pick, pick, bind, this, _inCountBounds.
  destruct (Z.ltb_spec 0 c); simpl; [|done].
  destruct (Z.leb_spec c (_count (snd w))); simpl; [|done].
  destruct Hv as [Hm Hc]; [lia|].
  rewrite !(storage_priority_ok w a) by done. done.
Qed.

Lemma sink_max_ok w a i :
  arrays (fst w) !! _storage (snd w) = Some a ->
  valid_cells (records (fst w)) a (_count (snd w)) ->
  1 <= i ->
  sink_max i w =
    Ok (max_of (_count (snd w))
          (fun k => prio_at (records (fst w)) (array_get a k)) i) w.
Proof.
  intros Ha Hv Hi. unfold sink_max, max_of, bind.
  rewrite (sink_pick_ok w a _ _ Ha).
  2:{ unfold _left. intros ?. split; apply Hv; lia. }
  rewrite (sink_pick_ok w a _ _ Ha); [done|].
  unfold _right. intros ?. split; [|apply Hv; lia].
  unfold pick, _left.
  destruct (_ && _); apply Hv; lia.
Qed.

End Steps.

(** ** Sinking *)

Section Sink.

Context {E : Type}.

Implicit Types (m : mem E) (w : world E) (rs : list (record E)).
Implicit Types (a : list value) (v : value).

Lemma max_of_shape n (f : Z -> option Z) i :
  1 <= i ->
  max_of n f i = i \/ (2 * i <= max_of n f i <= 2 * i + 1 /\ max_of n f i <= n).
Proof.
  intros Hi. unfold max_of, pick, _left, _right.
  repeat match goal with
  | |- context [Z.ltb ?x ?y] => destruct (Z.ltb_spec x y); simpl
  | |- context [Z.leb ?x ?y] => destruct (Z.leb_spec x y); simpl
  | |- context [js_lt ?x ?y] => destruct (js_lt x y); simpl
  end; lia.
Qed.

Lemma js_lt_Some x y : js_lt (Some x) (Some y) = (x <? y).
Proof. done. Qed.

Lemma max_of_order n (f : Z -> option Z) (g : Z -> Z) i :
  (forall k, 1 <= k <= n -> f k = Some (g k)) ->
  1 <= i <= n ->
  g i <= g (max_of n f i) /\
  (max_of n f i <> i -> g i < g (max_of n f i)) /\
  (forall c, 2 * i <= c <= 2 * i + 1 -> c <= n -> g c <= g (max_of n f i)).
Proof.
  intros Hf Hi. unfold max_of, pick, _left, _right.
  destruct (Z.ltb_spec 0 (2 * i)); [|lia]. simpl.
  destruct (Z.ltb_spec 0 (2 * i + 1)); [|lia]. simpl.
  destruct (Z.leb_spec (2 * i) n); simpl.
  - rewrite (Hf i), (Hf (2 * i)), js_lt_Some by lia.
    destruct (Z.ltb_spec (g i) (g (2 * i))).
    + destruct (Z.leb_spec (2 * i + 1) n); simpl.
      * rewrite (Hf (2 * i)), (Hf (2 * i + 1)), js_lt_Some by lia.
        destruct (Z.ltb_spec (g (2 * i)) (g (2 * i + 1)));
          (split; [lia|]; split; [lia|]; intros c Hc ?;
           assert (c = 2 * i \/ c = 2 * i + 1) as [->| ->] by lia; lia).
      * split; [lia|]. split; [lia|]. intros c Hc ?.
        assert (c = 2 * i) as -> by lia. lia.
    + destruct (Z.leb_spec (2 * i + 1) n); simpl.
      * rewrite (Hf i), (Hf (2 * i + 1)), js_lt_Some by lia.
        destruct (Z.ltb_spec (g i) (g (2 * i + 1)));
          (split; [lia|]; split; [lia|]; intros c Hc ?;
           assert (c = 2 * i \/ c = 2 * i + 1) as [->| ->] by lia; lia).
      * split; [lia|]. split; [lia|]. intros c Hc ?.
        assert (c = 2 * i) as -> by lia. lia.
  - destruct (Z.leb_spec (2 * i + 1) n); [lia|]. simpl.
    split; [lia|]. split; [lia|]. intros; lia.
Qed.

Lemma numeric_swapped rs a b n lo hi :
  1 <= lo -> hi <= n ->
  swapped lo hi a b -> numeric_cells rs a n -> numeric_cells rs b n.
Proof.
  intros Hlo Hhi Hs Hn k Hk.
  destruct (decide (lo <= k <= hi)) as [Hin|Hout].
  - destruct (swapped_inside _ _ _ _ _ Hs Hin) as (k' & Hk' & ->). apply Hn. lia.
  - rewrite (swapped_outside _ _ _ _ _ Hs Hout). by apply Hn.
Qed.

Lemma valid_swapped rs a b n lo hi :
  1 <= lo -> hi <= n ->
  swapped lo hi a b -> valid_cells rs a n -> valid_cells rs b n.
Proof.
  intros Hlo Hhi Hs Hn k Hk.
  destruct (decide (lo <= k <= hi)) as [Hin|Hout].
  - destruct (swapped_inside _ _ _ _ _ Hs Hin) as (k' & Hk' & ->). apply Hn. lia.
  - rewrite (swapped_outside _ _ _ _ _ Hs Hout). by apply Hn.
Qed.

(** One swap of the sinking cell with its larger child keeps what holds
    while sinking, one level down. *)
Lemma sink_pre_step rs a n lo i mx :
  1 <= lo <= i -> mx <= n -> n < Z.of_nat (length a) ->
  2 * i <= mx <= 2 * i + 1 ->
  kz rs a i < kz rs a mx ->
  (forall c, 2 * i <= c <= 2 * i + 1 -> c <= n -> kz rs a c <= kz rs a mx) ->
  sink_pre (kz rs a) n lo i ->
  sink_pre (kz rs (swap_cells a i mx)) n lo mx.
Proof.
  intros Hlo Hmx Hlen Hch Hlt Hsib [Hedge Hgrand]. split.
  - intros p c Hp Hpm Hc Hcn. rewrite !kz_swap_cells by lia.
    pose proof (Hedge p c Hp) as Hec.
    pose proof (Hgrand p mx Hp) as Hgm.
    pose proof (Hsib c) as Hsc.
    repeat case_decide; try lia.
  - intros p c Hp Hpm Hc Hcn. rewrite !kz_swap_cells by lia.
    pose proof (Hedge mx c) as Hec.
    repeat case_decide; try lia.
Qed.

Lemma sink_loop_spec lo fuel : forall w a i,
  arrays (fst w) !! _storage (snd w) = Some a ->
  _count (snd w) < Z.of_nat (length a) ->
  valid_cells (records (fst w)) a (_count (snd w)) ->
  1 <= i ->
  (Z.to_nat (_count (snd w) - i) < fuel)%nat ->
  exists a',
    sink_loop fuel i w = Ok tt (with_storage w a') /\
    swapped i (_count (snd w)) a a' /\
    (numeric_cells (records (fst w)) a (_count (snd w)) ->
     1 <= lo <= i ->
     sink_pre (kz (records (fst w)) a) (_count (snd w)) lo i ->
     heap_from (kz (records (fst w)) a') (_count (snd w)) lo).
Proof.
  induction fuel as [|fuel IH]; intros w a i Ha Hlen Hv Hi Hfuel; [lia|].
  set (n := _count (snd w)) in *. set (rs := records (fst w)) in *.
  set (f := fun k => prio_at rs (array_get a k)).
  simpl. unfold bind at 1. rewrite (sink_max_ok w a) by done.
  fold n rs f.
  destruct (max_of_shape n f i Hi) as [Heq|[Hch Hmx]].
  - (* the cell stays *)
    rewrite Heq, Z.eqb_refl. exists a. unfold ret.
    rewrite with_storage_id by done. split; [done|]. split; [constructor|].
    intros Hnum Hlo [Hedge Hgrand] p c Hp Hc Hcn.
    destruct (decide (p = i)) as [->|Hpi]; [|by apply (Hedge p c)].
    destruct (max_of_order n f (kz rs a) i) as (_ & _ & Hsib).
    { intros k Hk. by apply prio_at_kz, Hnum. }
    { lia. }
    rewrite Heq in Hsib. apply Hsib; lia.
  - (* the cell moves down to [max] *)
    set (mx := max_of n f i) in *.
    destruct (Z.eqb_spec mx i) as [?|Hne]; [lia|].
    unfold bind. rewrite (_swap_ok w a) by done.
    set (a1 := swap_cells a i mx).
    assert (length a1 = length a) as Hlen1 by (apply length_swap_cells; lia).
    assert (swapped i n a a1) as Hs1 by (apply swapped_once; lia).
    destruct (IH (with_storage w a1) a1 mx) as (a' & Hrun & Hs' & Hord).
    { by eapply with_storage_lookup. }
    { simpl. fold n. lia. }
    { simpl. fold n rs. apply (valid_swapped rs a a1 n i n); [lia|lia|done|done]. }
    { lia. }
    { simpl. fold n. lia. }
    simpl in Hrun, Hs', Hord. fold n rs in Hrun, Hs', Hord.
    exists a'. rewrite Hrun, with_storage_twice. split; [done|]. split.
    { eapply swapped_trans; [exact Hs1|]. eapply swapped_weaken; [| |exact Hs']; lia. }
    intros Hnum Hlo Hpre. apply Hord.
    { apply (numeric_swapped rs a a1 n i n); [lia|lia|done|done]. }
    { lia. }
    destruct (max_of_order n f (kz rs a) i) as (_ & Hlt & Hsib).
    { intros k Hk. by apply prio_at_kz, Hnum. }
    { lia. }
    fold mx in Hlt, Hsib.
    apply sink_pre_step; auto; lia.
Qed.

End Sink.

(** ** Building the heap and removing the maximum *)

Section Remove.

Context {E : Type}.

Implicit Types (m : mem E) (w : world E) (rs : list (record E)).
Implicit Types (a : list value) (v : value).

Lemma _sink_spec lo w a i :
  arrays (fst w) !! _storage (snd w) = Some a ->
  _count (snd w) < Z.of_nat (length a) ->
  valid_cells (records (fst w)) a (_count (snd w)) ->
  1 <= i ->
  exists a',
    _sink i w = Ok tt (with_storage w a') /\
    swapped i (_count (snd w)) a a' /\
    (numeric_cells (records (fst w)) a (_count (snd w)) ->
     1 <= lo <= i ->
     sink_pre (kz (records (fst w)) a) (_count (snd w)) lo i ->
     heap_from (kz (records (fst w)) a') (_count (snd w)) lo).
Proof.
  intros Ha Hlen Hv Hi. unfold _sink, bind, this.
  apply sink_loop_spec; auto.
Qed.

Lemma buildheap_loop_spec k : forall w a,
  arrays (fst w) !! _storage (snd w) = Some a ->
  _count (snd w) < Z.of_nat (length a) ->
  valid_cells (records (fst w)) a (_count (snd w)) ->
  exists a',
    buildheap_loop k w = Ok tt (with_storage w a') /\
    swapped 1 (_count (snd w)) a a' /\
    (numeric_cells (records (fst w)) a (_count (snd w)) ->
     heap_from (kz (records (fst w)) a) (_count (snd w)) (Z.of_nat k + 1) ->
     heap_from (kz (records (fst w)) a') (_count (snd w)) 1).
Proof.
  induction k as [|k IH]; intros w a Ha Hlen Hv.
  - exists a. simpl. unfold ret. rewrite with_storage_id by done.
    split; [done|]. split; [constructor|]. intros _ Hh. exact Hh.
  - set (n := _count (snd w)) in *. set (rs := records (fst w)) in *.
    destruct (_sink_spec (Z.of_nat (S k)) w a (Z.of_nat (S k)))
      as (a1 & Hrun1 & Hs1 & Hord1); [done|done|done|lia|].
    fold n rs in Hs1, Hord1.
    destruct (IH (with_storage w a1) a1) as (a' & Hrun & Hs & Hord).
    { by eapply with_storage_lookup. }
    { simpl. fold n. rewrite (swapped_length _ _ _ _ Hs1). done. }
    { simpl. fold n rs. apply (valid_swapped rs a a1 n (Z.of_nat (S k)) n); [lia|lia|done|done]. }
    simpl in Hrun, Hs, Hord. fold n rs in Hrun, Hs, Hord.
    exists a'. cbn [buildheap_loop]. unfold bind. rewrite Hrun1, Hrun, with_storage_twice.
    split; [done|]. split.
    { eapply swapped_trans; [|exact Hs]. eapply swapped_weaken; [| |exact Hs1]; lia. }
    intros Hnum Hh. apply Hord.
    { apply (numeric_swapped rs a a1 n (Z.of_nat (S k)) n); [lia|lia|done|done]. }
    replace (Z.of_nat k + 1) with (Z.of_nat (S k)) by lia.
    apply Hord1; [done|lia|]. split.
    + intros p c Hp Hne Hc Hcn. apply Hh; lia.
    + intros p c Hp Hpi Hc Hcn. lia.
Qed.

Lemma _buildheap_spec w a :
  arrays (fst w) !! _storage (snd w) = Some a ->
  _count (snd w) < Z.of_nat (length a) ->
  valid_cells (records (fst w)) a (_count (snd w)) ->
  exists a',
    _buildheap w = Ok tt (with_storage w a') /\
    swapped 1 (_count (snd w)) a a' /\
    (numeric_cells (records (fst w)) a (_count (snd w)) ->
     heap_from (kz (records (fst w)) a') (_count (snd w)) 1).
Proof.
  intros Ha Hlen Hv. unfold _buildheap, bind, this.
  destruct (buildheap_loop_spec (Z.to_nat (_count (snd w) / 2)) w a)
    as (a' & Hrun & Hs & Hord); [done|done|done|].
  exists a'. split; [done|]. split; [done|].
  intros Hnum. apply Hord; [done|].
  intros p c Hp Hc Hcn. exfalso.
  pose proof (Z.div_mod (_count (snd w)) 2).
  pose proof (Z.mod_pos_bound (_count (snd w)) 2).
  lia.
Qed.

(** In a heap the root carries the largest key. *)
Lemma heap_from_root (f : Z -> Z) n :
  heap_from f n 1 -> forall k, 1 <= k <= n -> f k <= f 1.
Proof.
  intros Hh k Hk.
  assert (forall (b : nat) k, 1 <= k <= n -> k <= Z.of_nat b -> f k <= f 1) as Hind.
  { clear k Hk. induction b as [|b IH]; intros k Hk Hb; [lia|].
    destruct (decide (k = 1)) as [->|Hne]; [lia|].
    assert (exists p, 2 * p <= k <= 2 * p + 1) as [p Hp].
    { exists (k / 2). pose proof (Z.div_mod k 2). pose proof (Z.mod_pos_bound k 2). lia. }
    transitivity (f p).
    - apply Hh; lia.
    - apply IH; lia. }
  apply (Hind (Z.to_nat k)); lia.
Qed.

Lemma removeMax_empty w :
  _count (snd w) = 0 -> removeMax w = Ok None w.
Proof.
  intros Hc. unfold removeMax, bind, this. by rewrite Hc.
Qed.

Lemma removeMax_spec w a :
  arrays (fst w) !! _storage (snd w) = Some a ->
  1 <= _count (snd w) < Z.of_nat (length a) ->
  valid_cells (records (fst w)) a (_count (snd w)) ->
  exists a' r,
    removeMax w =
      Ok (element r) (with_count (with_storage w a') (_count (snd w) - 1)) /\
    record_at (records (fst w)) (array_get a 1) = Some r /\
    array_get a' (_count (snd w)) = array_get a 1 /\
    swapped 1 (_count (snd w)) a a' /\
    swapped 1 (_count (snd w) - 1) (swap_cells a 1 (_count (snd w))) a' /\
    (numeric_cells (records (fst w)) a (_count (snd w)) ->
     heap_from (kz (records (fst w)) a) (_count (snd w)) 1 ->
     heap_from (kz (records (fst w)) a') (_count (snd w) - 1) 1).
Proof.
  intros Ha Hn Hv.
  set (n := _count (snd w)) in *. set (rs := records (fst w)) in *.
  set (a1 := swap_cells a 1 n).
  assert (length a1 = length a) as Hlen1 by (apply length_swap_cells; lia).
  assert (swapped 1 n a a1) as Hs1 by (apply swapped_once; lia).
  set (w1 := with_count (with_storage w a1) (n - 1)).
  destruct (_sink_spec 1 w1 a1 1) as (a' & Hrun & Hs & Hord).
  { unfold w1. simpl. apply list_lookup_insert_eq. by eapply lookup_lt_Some. }
  { simpl. lia. }
  { simpl. fold rs. intros k Hk.
    apply (valid_swapped rs a a1 n 1 n); [lia|lia|done|done|lia]. }
  { lia. }
  simpl in Hs, Hord. fold rs in Hord.
  destruct (Hv 1) as [r Hr]; [lia|]. fold rs in Hr.
  assert (array_get a' n = array_get a 1) as Hlast.
  { rewrite (swapped_outside _ _ _ _ n Hs) by lia.
    unfold a1. rewrite array_get_swap_cells by lia. by rewrite decide_True. }
  exists a', r. split; [|split; [done|]; split; [done|]; split; [|split; [done|]]].
  - unfold removeMax, bind, this. fold n.
    destruct (Z.eqb_spec n 0) as [?|_]; [lia|].
    rewrite (_swap_ok w a) by done. fold a1.
    unfold set_count. simpl. fold n.
    change (_sink 1 w1 = Ok tt (with_storage w1 a')) in Hrun.
    match goal with |- context [_sink 1 ?x] => change x with w1 end.
    rewrite Hrun.
    rewrite (storage_element_ok _ a' n r).
    + f_equal. unfold w1, with_storage, with_count. simpl.
      by rewrite list_insert_insert_eq.
    + by eapply with_storage_lookup; unfold w1; simpl;
        apply list_lookup_insert_eq; eapply lookup_lt_Some.
    + simpl. fold rs. by rewrite Hlast.
  - eapply swapped_trans; [exact Hs1|]. eapply swapped_weaken; [| |exact Hs]; lia.
  - intros Hnum Hh. apply Hord; [| lia |].
    + intros k Hk. apply (numeric_swapped rs a a1 n 1 n); [lia|lia|done|done|lia].
    + split.
      * intros p c Hp Hne Hc Hcn. unfold a1. rewrite !kz_swap_cells by lia.
        pose proof (Hh p c). repeat case_decide; lia.
      * intros p c Hp Hpi. lia.
Qed.

End Remove.

(** ** Draining the heap *)

Section Sort.

Context {E : Type}.

Implicit Types (m : mem E) (w : world E) (rs : list (record E)).
Implicit Types (a : list value) (v : value).

Lemma with_count_id w : with_count w (_count (snd w)) = w.
Proof. by destruct w as [m [st sz n]]. Qed.

Lemma kz_swapped_inside rs lo hi a b k :
  swapped lo hi a b -> lo <= k <= hi ->
  exists k', lo <= k' <= hi /\ kz rs b k = kz rs a k'.
Proof.
  intros Hs Hk. destruct (swapped_inside _ _ _ _ _ Hs Hk) as (k' & Hk' & Heq).
  exists k'. split; [done|]. unfold kz. by rewrite Heq.
Qed.

Lemma kz_swapped_outside rs lo hi a b k :
  swapped lo hi a b -> ~ (lo <= k <= hi) -> kz rs b k = kz rs a k.
Proof.
  intros Hs Hk. unfold kz. by rewrite (swapped_outside _ _ _ _ _ Hs Hk).
Qed.

(** One [removeMax] moves the boundary of the sorted tail down by one. *)
Lemma sorted_tail_step rs a a1 n N :
  1 <= n <= N ->
  heap_from (kz rs a) n 1 ->
  sorted_tail (kz rs a) n N ->
  array_get a1 n = array_get a 1 ->
  swapped 1 n a a1 ->
  sorted_tail (kz rs a1) (n - 1) N.
Proof.
  intros Hn Hh [Hsort Hbound] Hlast Hs.
  assert (kz rs a1 n = kz rs a 1) as Hkn by (unfold kz; by rewrite Hlast).
  assert (forall j, n < j -> kz rs a1 j = kz rs a j) as Hout.
  { intros j Hj. apply (kz_swapped_outside rs 1 n); [done|lia]. }
  pose proof (heap_from_root _ _ Hh) as Hroot.
  split.
  - intros i j Hi Hij Hj.
    destruct (decide (i = n)) as [->|Hin].
    + destruct (decide (j = n)) as [->|Hjn]; [lia|].
      rewrite Hkn, Hout by lia. apply Hbound; lia.
    + rewrite !Hout by lia. apply Hsort; lia.
  - intros i j Hi Hj.
    destruct (kz_swapped_inside rs 1 n a a1 i Hs) as (k' & Hk' & ->); [lia|].
    destruct (decide (j = n)) as [->|Hjn].
    + rewrite Hkn. apply Hroot; lia.
    + rewrite Hout by lia. apply Hbound; lia.
Qed.

Lemma removeMax_times_spec k : forall w a,
  arrays (fst w) !! _storage (snd w) = Some a ->
  _count (snd w) < Z.of_nat (length a) ->
  Z.of_nat k <= _count (snd w) ->
  valid_cells (records (fst w)) a (_count (snd w)) ->
  exists a',
    removeMax_times k w =
      Ok tt (with_count (with_storage w a') (_count (snd w) - Z.of_nat k)) /\
    swapped 1 (_count (snd w)) a a' /\
    (numeric_cells (records (fst w)) a (_count (snd w)) ->
     heap_from (kz (records (fst w)) a) (_count (snd w)) 1 ->
     forall N, _count (snd w) <= N ->
       sorted_tail (kz (records (fst w)) a) (_count (snd w)) N ->
       heap_from (kz (records (fst w)) a') (_count (snd w) - Z.of_nat k) 1 /\
       sorted_tail (kz (records (fst w)) a') (_count (snd w) - Z.of_nat k) N).
Proof.
  induction k as [|k IH]; intros w a Ha Hlen Hk Hv.
  - exists a. simpl. unfold ret.
    rewrite with_storage_id, Z.sub_0_r, with_count_id by done.
    split; [done|]. split; [constructor|]. auto.
  - set (n := _count (snd w)) in *. set (rs := records (fst w)) in *.
    destruct (removeMax_spec w a) as (a1 & r & Hrun1 & _ & Hlast & Hs1 & _ & Hord1);
      [done|lia|done|].
    fold n rs in Hrun1, Hlast, Hs1, Hord1.
    set (w1 := with_count (with_storage w a1) (n - 1)) in *.
    assert (length a1 = length a) as Hlen1 by (by eapply swapped_length).
    destruct (IH w1 a1) as (a' & Hrun & Hs & Hord).
    { unfold w1. simpl. apply list_lookup_insert_eq. by eapply lookup_lt_Some. }
    { simpl. lia. }
    { simpl. lia. }
    { simpl. fold rs. intros i Hi.
      apply (valid_swapped rs a a1 n 1 n); [lia|lia|done|done|lia]. }
    simpl in Hrun, Hs, Hord. fold rs in Hord.
    exists a'. cbn [removeMax_times]. unfold bind. rewrite Hrun1, Hrun.
    split; [|split].
    + replace (n - Z.of_nat (S k)) with (n - 1 - Z.of_nat k) by lia.
      f_equal. unfold w1, with_storage, with_count. simpl.
      by rewrite list_insert_insert_eq.
    + eapply swapped_trans; [exact Hs1|]. eapply swapped_weaken; [| |exact Hs]; lia.
    + intros Hnum Hh N HN Hst.
      replace (n - Z.of_nat (S k)) with (n - 1 - Z.of_nat k) by lia.
      apply Hord; [| |lia|].
      * intros i Hi. apply (numeric_swapped rs a a1 n 1 n); [lia|lia|done|done|lia].
      * by apply Hord1.
      * apply (sorted_tail_step rs a a1 n N); auto. lia.
Qed.

Lemma sort_spec w a :
  arrays (fst w) !! _storage (snd w) = Some a ->
  0 <= _count (snd w) < Z.of_nat (length a) ->
  valid_cells (records (fst w)) a (_count (snd w)) ->
  exists a',
    sort w = Ok (_storage (snd w)) (with_count (with_storage w a') 0) /\
    swapped 1 (_count (snd w)) a a' /\
    (numeric_cells (records (fst w)) a (_count (snd w)) ->
     heap_from (kz (records (fst w)) a) (_count (snd w)) 1 ->
     forall i j, 1 <= i -> i <= j -> j <= _count (snd w) ->
       kz (records (fst w)) a' i <= kz (records (fst w)) a' j).
Proof.
  intros Ha Hn Hv.
  destruct (removeMax_times_spec (Z.to_nat (_count (snd w))) w a)
    as (a' & Hrun & Hs & Hord); [done|lia|lia|done|].
  exists a'. split; [|split; [done|]].
  - unfold sort, bind, this. rewrite Hrun. unfold ret. simpl.
    repeat f_equal. lia.
  - intros Hnum Hh i j Hi Hij Hj.
    destruct (Hord Hnum Hh (_count (snd w))) as [_ [Hsorted _]]; [lia| |].
    + split; intros; lia.
    + apply Hsorted; lia.
Qed.

End Sort.

(** ** Floating and inserting *)

Section Insert.

Context {E : Type}.

Implicit Types (m : mem E) (w : world E) (rs : list (record E)).
Implicit Types (a : list value) (v : value).

Lemma parent_bounds i : 2 * _parent i <= i <= 2 * _parent i + 1.
Proof.
  unfold _parent. pose proof (Z.div_mod i 2). pose proof (Z.mod_pos_bound i 2). lia.
Qed.

Lemma valid_cells_le rs a n n' : n' <= n -> valid_cells rs a n -> valid_cells rs a n'.
Proof. intros Hle Hv k Hk. apply Hv. lia. Qed.

Lemma float_pre_step rs a N i p :
  1 <= p -> 2 * p <= i <= 2 * p + 1 -> i <= N -> N < Z.of_nat (length a) ->
  kz rs a p < kz rs a i ->
  float_pre (kz rs a) N i ->
  float_pre (kz rs (swap_cells a i p)) N p.
Proof.
  intros Hp Hpi HiN Hlen Hlt [Hedge Hgrand]. split.
  - intros q c Hq Hcp Hc HcN. rewrite !kz_swap_cells by lia.
    pose proof (Hedge q c Hq). pose proof (Hgrand p c Hp). pose proof (Hedge p c Hp).
    repeat case_decide; try lia.
  - intros q c Hq Hqp Hc HcN. rewrite !kz_swap_cells by lia.
    pose proof (Hedge q p Hq). pose proof (Hedge p c Hp).
    repeat case_decide; try lia.
Qed.

Lemma float_loop_spec N fuel : forall w a i,
  arrays (fst w) !! _storage (snd w) = Some a ->
  1 <= i <= size (snd w) ->
  i < Z.of_nat (length a) ->
  valid_cells (records (fst w)) a i ->
  (Z.to_nat i < fuel)%nat ->
  exists a',
    float_loop fuel i (_parent i) w = Ok tt (with_storage w a') /\
    swapped 1 i a a' /\
    (numeric_cells (records (fst w)) a N ->
     i <= N -> N < Z.of_nat (length a) ->
     float_pre (kz (records (fst w)) a) N i ->
     heap_from (kz (records (fst w)) a') N 1).
Proof.
  induction fuel as [|fuel IH]; intros w a i Ha Hi Hlen Hv Hfuel; [lia|].
  set (rs := records (fst w)) in *.
  pose proof (parent_bounds i) as Hp. set (p := _parent i) in *.
  simpl. unfold bind at 1. unfold this. unfold _inSizeBounds.
  destruct (Z.ltb_spec 0 p) as [Hp0|Hp0]; simpl.
  - destruct (Z.leb_spec p (size (snd w))) as [_|?]; [|lia].
    unfold bind at 1. rewrite (storage_priority_ok w a) by (done || apply Hv; lia).
    unfold bind at 1. rewrite (storage_priority_ok w a) by (done || apply Hv; lia).
    fold rs.
    destruct (js_gt (prio_at rs (array_get a i)) (prio_at rs (array_get a p))) eqn:Hgt.
    + unfold bind. rewrite (_swap_ok w a) by done.
      set (a1 := swap_cells a i p).
      assert (length a1 = length a) as Hlen1 by (apply length_swap_cells; lia).
      assert (swapped 1 i a a1) as Hs1 by (apply swapped_once; lia).
      destruct (IH (with_storage w a1) a1 p) as (a' & Hrun & Hs & Hord).
      { by eapply with_storage_lookup. }
      { simpl. lia. }
      { lia. }
      { simpl. fold rs. apply (valid_cells_le rs a1 i); [lia|].
        apply (valid_swapped rs a a1 i 1 i); [lia|lia|done|done]. }
      { lia. }
      simpl in Hrun, Hord. fold rs in Hord.
      exists a'. rewrite Hrun, with_storage_twice. split; [done|]. split.
      { eapply swapped_trans; [exact Hs1|]. eapply swapped_weaken; [| |exact Hs]; lia. }
      intros Hnum HiN HlenN Hpre. apply Hord; [|lia|lia|].
      { apply (numeric_swapped rs a a1 N 1 i); [lia|lia|done|done]. }
      apply float_pre_step; auto; try lia.
      unfold js_gt in Hgt.
      rewrite (prio_at_kz rs a i), (prio_at_kz rs a p), js_lt_Some in Hgt
        by (apply Hnum; lia).
      lia.
    + exists a. unfold ret. rewrite with_storage_id by done.
      split; [done|]. split; [constructor|].
      intros Hnum HiN HlenN [Hedge Hgrand] q c Hq Hc HcN.
      destruct (decide (c = i)) as [->|Hci]; [|by apply Hedge].
      assert (q = p) as -> by lia.
      unfold js_gt in Hgt.
      rewrite (prio_at_kz rs a i), (prio_at_kz rs a p), js_lt_Some in Hgt
        by (apply Hnum; lia).
      lia.
  - exists a. unfold ret. rewrite with_storage_id by done.
    split; [done|]. split; [constructor|].
    intros Hnum HiN HlenN [Hedge Hgrand] q c Hq Hc HcN.
    apply Hedge; auto. lia.
Qed.

Lemma _float_spec N w a i :
  arrays (fst w) !! _storage (snd w) = Some a ->
  1 <= i <= size (snd w) ->
  i < Z.of_nat (length a) ->
  valid_cells (records (fst w)) a i ->
  exists a',
    _float i w = Ok tt (with_storage w a') /\
    swapped 1 i a a' /\
    (numeric_cells (records (fst w)) a N ->
     i <= N -> N < Z.of_nat (length a) ->
     float_pre (kz (records (fst w)) a) N i ->
     heap_from (kz (records (fst w)) a') N 1).
Proof.
  intros Ha Hi Hlen Hv. unfold _float. apply float_loop_spec; auto.
Qed.

Lemma storage_set_priority_ok w a i p l r :
  arrays (fst w) !! _storage (snd w) = Some a ->
  array_get a i = VRef l ->
  records (fst w) !! l = Some r ->
  storage_set_priority i p w =
    Ok tt (with_records w
             (<[l := {| priority := Some p; element := element r |}]> (records (fst w)))).
Proof.
  intros Ha Hl Hr. unfold storage_set_priority, bind.
  rewrite (storage_get_ok w a), Hl by done. unfold deref. by rewrite Hr.
Qed.

Lemma storage_set_element_ok w a i e l r :
  arrays (fst w) !! _storage (snd w) = Some a ->
  array_get a i = VRef l ->
  records (fst w) !! l = Some r ->
  storage_set_element i e w =
    Ok tt (with_records w
             (<[l := {| priority := priority r; element := e |}]> (records (fst w)))).
Proof.
  intros Ha Hl Hr. unfold storage_set_element, bind.
  rewrite (storage_get_ok w a), Hl by done. unfold deref. by rewrite Hr.
Qed.

Lemma insert_full w p e :
  ~ (0 < _count (snd w) + 1 <= size (snd w)) ->
  insert p e w = Throw HeapFull w.
Proof.
  intros Hfull. unfold insert, bind, this, _inSizeBounds.
  destruct (Z.ltb_spec 0 (_count (snd w) + 1)); simpl; [|done].
  destruct (Z.leb_spec (_count (snd w) + 1) (size (snd w))); simpl; [lia|done].
Qed.

Lemma record_at_VRef rs v : is_Some (record_at rs v) -> exists l, v = VRef l.
Proof. destruct v; simpl; intros [r Hr]; try done. eauto. Qed.

(** Writing the record of one cell leaves the records of the other cells
    alone when no record sits in two cells. *)
Lemma record_at_insert_other rs a n i k l r' :
  distinct_cells a n -> 1 <= i <= n -> 1 <= k <= n -> k <> i ->
  array_get a i = VRef l ->
  record_at (<[l := r']> rs) (array_get a k) = record_at rs (array_get a k).
Proof.
  intros Hd Hi Hk Hne Hl.
  destruct (array_get a k) as [| |l'] eqn:Hk'; simpl; try done.
  apply list_lookup_insert_ne. intros ->.
  apply Hne, (Hd k i); [done|done|congruence].
Qed.

Lemma record_at_insert_is_Some rs v l r' :
  is_Some (record_at rs v) -> is_Some (record_at (<[l := r']> rs) v).
Proof.
  destruct v as [| |l']; simpl; try done.
  intros Hs. apply lookup_lt_is_Some. rewrite length_insert.
  by apply lookup_lt_is_Some.
Qed.

Lemma insert_spec w a p e :
  arrays (fst w) !! _storage (snd w) = Some a ->
  Z.of_nat (length a) = size (snd w) + 1 ->
  0 <= _count (snd w) < size (snd w) ->
  valid_cells (records (fst w)) a (size (snd w)) ->
  exists l r a',
    array_get a (_count (snd w) + 1) = VRef l /\
    records (fst w) !! l = Some r /\
    insert p e w =
      Ok tt (with_count
               (with_storage
                  (with_records w
                     (<[l := {| priority := Some p; element := e |}]> (records (fst w))))
                  a')
               (_count (snd w) + 1)) /\
    swapped 1 (_count (snd w) + 1) a a' /\
    (distinct_cells a (size (snd w)) ->
     numeric_cells (records (fst w)) a (_count (snd w)) ->
     heap_from (kz (records (fst w)) a) (_count (snd w)) 1 ->
     numeric_cells (<[l := {| priority := Some p; element := e |}]> (records (fst w)))
       a' (_count (snd w) + 1) /\
     heap_from (kz (<[l := {| priority := Some p; element := e |}]> (records (fst w))) a')
       (_count (snd w) + 1) 1).
Proof.
  intros Ha Hlen Hn Hv.
  set (n := _count (snd w)) in *. set (rs := records (fst w)) in *.
  set (sz := size (snd w)) in *.
  destruct (record_at_VRef rs (array_get a (n + 1))) as [l Hl]; [apply Hv; lia|].
  destruct (Hv (n + 1)) as [r Hr]; [lia|]. rewrite Hl in Hr. simpl in Hr.
  set (rs' := <[l := {| priority := Some p; element := e |}]> rs).
  set (w2 := with_records w rs').
  assert (valid_cells rs' a sz) as Hv'.
  { intros k Hk. apply record_at_insert_is_Some. by apply Hv. }
  destruct (_float_spec (n + 1) w2 a (n + 1)) as (a' & Hrun & Hs & Hord);
    [done|simpl; lia|lia|simpl; apply (valid_cells_le rs' a sz); [lia|done]|].
  simpl in Hord. fold rs' in Hord.
  exists l, r, a'. split; [done|]. split; [done|]. split; [|split; [done|]].
  - unfold insert. unfold bind at 1. unfold this. fold n. unfold _inSizeBounds. fold sz.
    destruct (Z.ltb_spec 0 (n + 1)); [|lia].
    destruct (Z.leb_spec (n + 1) sz); [|lia].
    change (negb (true && true)) with false. cbv iota.
    unfold bind at 1. rewrite (storage_set_priority_ok w a (n + 1) p l r) by done.
    fold rs.
    unfold bind at 1.
    rewrite (storage_set_element_ok _ a (n + 1) e l
               {| priority := Some p; element := element r |});
      [|done|done|].
    2:{ simpl. fold rs. apply list_lookup_insert_eq. by eapply lookup_lt_Some. }
    simpl records. fold rs. rewrite list_insert_insert_eq. simpl priority. fold rs'.
    change (with_records (with_records w _) _) with w2.
    unfold bind at 1. rewrite Hrun. unfold bind, this, set_count. simpl. done.
  - intros Hd Hnum Hh.
    assert (forall k, 1 <= k <= n ->
              prio_at rs' (array_get a k) = prio_at rs (array_get a k)) as Hsame.
    { intros k Hk. unfold prio_at, rs'.
      rewrite (record_at_insert_other rs a sz (n + 1) k l); [done|done|lia|lia|lia|done]. }
    assert (prio_at rs' (array_get a (n + 1)) = Some p) as Hnew.
    { unfold prio_at. rewrite Hl. simpl. unfold rs'.
      rewrite list_lookup_insert_eq by (by eapply lookup_lt_Some). done. }
    assert (numeric_cells rs' a (n + 1)) as Hnum'.
    { intros k Hk. destruct (decide (k = n + 1)) as [->|Hne].
      - rewrite Hnew. eauto.
      - rewrite Hsame by lia. apply Hnum. lia. }
    split.
    + apply (numeric_swapped rs' a a' (n + 1) 1 (n + 1)); [lia|lia|done|done].
    + apply Hord; [done|lia|lia|]. split.
      * intros q c Hq Hc Hqc HcN. unfold kz. rewrite !Hsame by lia.
        apply (Hh q c); lia.
      * intros q c Hq Hqi Hc HcN. lia.
Qed.

End Insert.

(** ** Heaps as the operations make them *)

Section Worlds.

Context {E : Type}.

Implicit Types (m : mem E) (w : world E) (rs : list (record E)).
Implicit Types (a : list value) (v : value).

Lemma prio_ge_kz rs a i j :
  is_Some (prio_at rs (array_get a i)) ->
  is_Some (prio_at rs (array_get a j)) ->
  kz rs a j <= kz rs a i ->
  prio_ge (prio_at rs (array_get a i)) (prio_at rs (array_get a j)).
Proof.
  intros Hi Hj Hle. rewrite (prio_at_kz rs a i Hi), (prio_at_kz rs a j Hj). done.
Qed.

Lemma valid_heap_property w : valid w -> heap_property w.
Proof.
  intros (a & Ha & Hlen & Hn & Hv & Hnum & Hh) i Hi.
  unfold prio. rewrite (storage_of_lookup w a Ha). unfold _left, _right.
  split; intros Hc; apply prio_ge_kz;
    try (apply Hnum; lia); apply Hh; lia.
Qed.

Lemma valid_wf w : valid w -> wf w.
Proof.
  intros (a & Ha & Hlen & Hn & Hv & _). exists a. auto.
Qed.

Lemma distinct_swapped a b n lo hi :
  1 <= lo -> hi <= n ->
  swapped lo hi a b -> distinct_cells a n -> distinct_cells b n.
Proof.
  intros Hlo Hhi Hs. induction Hs as [|a i j b Hi Hj Hil Hjl _ IH]; [done|].
  intros Hd. apply IH. intros x y Hx Hy.
  rewrite !array_get_swap_cells by done.
  repeat case_decide; subst; intros Heq; try done.
  all: apply (Hd _ _) in Heq; lia.
Qed.

(** *** The constructor without [fromArray] *)

Lemma push_slots_eq k : forall rs st,
  push_slots k rs st =
    (rs ++ replicate k {| priority := None; element := None |},
     st ++ map VRef (seq (length rs) k)).
Proof.
  induction k as [|k IH]; intros rs st; simpl.
  - by rewrite !app_nil_r.
  - rewrite IH, length_app. simpl. rewrite <- !app_assoc. simpl.
    by rewrite Nat.add_1_r.
Qed.

Lemma constructor_new_eq sz m :
  constructor sz None m =
    Ok tt
      ({| arrays := arrays m ++
            [VNull :: map VRef (seq (length (records m)) (Z.to_nat (default DEFAULT_SIZE sz)))];
          records := records m ++
            replicate (Z.to_nat (default DEFAULT_SIZE sz))
              {| priority := None; element := None |} |},
       {| _storage := length (arrays m);
          size := default DEFAULT_SIZE sz;
          _count := 0 |}).
Proof. unfold constructor. by rewrite push_slots_eq. Qed.

Lemma array_get_new_slot base k i :
  1 <= i <= Z.of_nat k ->
  array_get (VNull :: map VRef (seq base k)) i = VRef (base + Z.to_nat (i - 1))%nat.
Proof.
  intros Hi. unfold array_get. destruct (Z.ltb_spec i 0); [lia|].
  replace (Z.to_nat i) with (S (Z.to_nat (i - 1))) by lia. simpl.
  rewrite list_lookup_fmap, lookup_seq_lt by lia. done.
Qed.

Lemma constructor_new_valid sz m w :
  0 <= default DEFAULT_SIZE sz ->
  constructor sz None m = Ok tt w ->
  valid_distinct w /\ _count (snd w) = 0 /\ size (snd w) = default DEFAULT_SIZE sz.
Proof.
  intros Hsz. rewrite constructor_new_eq. intros [= <-].
  set (n := default DEFAULT_SIZE sz) in *.
  set (a := VNull :: map VRef (seq (length (records m)) (Z.to_nat n))).
  assert (forall ars : list (list value), (ars ++ [a]) !! length ars = Some a) as Hlk.
  { intros ars. rewrite lookup_app_r, Nat.sub_diag by lia. done. }
  split; [|done]. split.
  - exists a. simpl. split; [apply Hlk|]. split.
    { unfold a. simpl. rewrite length_map, length_seq. lia. }
    split; [lia|]. split; [|split].
    + intros k Hk. unfold a. rewrite array_get_new_slot by lia. simpl.
      apply lookup_lt_is_Some. rewrite length_app, length_replicate. lia.
    + intros k Hk. lia.
    + intros p c Hp Hc Hcn. lia.
  - unfold storage_of. simpl. rewrite Hlk. simpl.
    intros i j Hi Hj. unfold a. rewrite !array_get_new_slot by lia.
    intros [= Heq]. lia.
Qed.

(** *** The worlds the operations return *)

Lemma storage_of_after w a' rs' c :
  is_Some (arrays (fst w) !! _storage (snd w)) ->
  storage_of (with_count (with_storage (with_records w rs') a') c) = a'.
Proof.
  intros [a Ha]. unfold storage_of. simpl.
  rewrite list_lookup_insert_eq by (by eapply lookup_lt_Some). done.
Qed.

Lemma storage_of_with_storage w a a' :
  arrays (fst w) !! _storage (snd w) = Some a ->
  storage_of (with_storage w a') = a'.
Proof.
  intros Ha. unfold storage_of. simpl.
  rewrite list_lookup_insert_eq by (by eapply lookup_lt_Some). done.
Qed.

Lemma storage_of_with_count w c : storage_of (with_count w c) = storage_of w.
Proof. done. Qed.

Lemma wf_after w a' rs' c :
  is_Some (arrays (fst w) !! _storage (snd w)) ->
  Z.of_nat (length a') = size (snd w) + 1 ->
  0 <= c <= size (snd w) ->
  valid_cells rs' a' (size (snd w)) ->
  wf (with_count (with_storage (with_records w rs') a') c).
Proof.
  intros [a Ha] Hlen Hc Hv. exists a'. simpl.
  rewrite list_lookup_insert_eq by (by eapply lookup_lt_Some). auto.
Qed.

Lemma valid_after w a' rs' c :
  is_Some (arrays (fst w) !! _storage (snd w)) ->
  Z.of_nat (length a') = size (snd w) + 1 ->
  0 <= c <= size (snd w) ->
  valid_cells rs' a' (size (snd w)) ->
  numeric_cells rs' a' c ->
  heap_from (kz rs' a') c 1 ->
  valid (with_count (with_storage (with_records w rs') a') c).
Proof.
  intros [a Ha] Hlen Hc Hv Hnum Hh. exists a'. simpl.
  rewrite list_lookup_insert_eq by (by eapply lookup_lt_Some). auto 10.
Qed.

Lemma same_slots_after w a a' rs' c lo hi :
  arrays (fst w) !! _storage (snd w) = Some a ->
  Z.of_nat (length a) = size (snd w) + 1 ->
  length rs' = length (records (fst w)) ->
  swapped lo hi a a' ->
  same_slots w (with_count (with_storage (with_records w rs') a') c).
Proof.
  intros Ha Hlen Hrs Hs. unfold same_slots.
  rewrite storage_of_after by eauto. rewrite (storage_of_lookup w a Ha). simpl.
  rewrite length_insert, (swapped_length _ _ _ _ Hs).
  repeat (split; [done|]). by eapply swapped_Permutation.
Qed.

Lemma same_slots_refl w : wf w -> same_slots w w.
Proof.
  intros (a & Ha & Hlen & _). unfold same_slots.
  rewrite (storage_of_lookup w a Ha). repeat (split; [done|]). done.
Qed.

(** *** [removeMax] *)

Lemma removeMax_wf w :
  wf w -> 1 <= _count (snd w) ->
  exists a a' r,
    arrays (fst w) !! _storage (snd w) = Some a /\
    removeMax w =
      Ok (element r) (with_count (with_storage w a') (_count (snd w) - 1)) /\
    record_at (records (fst w)) (array_get a 1) = Some r /\
    array_get a' (_count (snd w)) = array_get a 1 /\
    swapped 1 (_count (snd w)) a a' /\
    wf (with_count (with_storage w a') (_count (snd w) - 1)) /\
    same_slots w (with_count (with_storage w a') (_count (snd w) - 1)) /\
    (valid w -> valid (with_count (with_storage w a') (_count (snd w) - 1))) /\
    (distinct_cells a (size (snd w)) -> distinct_cells a' (size (snd w))).
Proof.
  intros (a & Ha & Hlen & Hn & Hv) Hpos.
  destruct (removeMax_spec w a) as (a' & r & Hrun & Hr & Hlast & Hs & _ & Hord);
    [done|lia|by eapply valid_cells_le; [|exact Hv]; lia|].
  assert (Z.of_nat (length a') = size (snd w) + 1) as Hlen'.
  { by rewrite (swapped_length _ _ _ _ Hs). }
  assert (valid_cells (records (fst w)) a' (size (snd w))) as Hv'.
  { apply (valid_swapped _ a a' _ 1 (_count (snd w))); [lia|lia|done|done]. }
  exists a, a', r. do 5 (split; [done|]). split; [|split; [|split]].
  - apply (wf_after w a' (records (fst w))); eauto; lia.
  - apply (same_slots_after w a a' (records (fst w)) _ 1 (_count (snd w))); auto.
  - intros (a0 & Ha0 & _ & _ & _ & Hnum & Hh).
    assert (a0 = a) as -> by congruence.
    apply (valid_after w a' (records (fst w)));
      [eauto|done|lia|done| |by apply Hord].
    intros k Hk.
    apply (numeric_swapped _ a a' (_count (snd w)) 1 (_count (snd w)));
      [lia|lia|done|done|lia].
  - apply (distinct_swapped a a' _ 1 (_count (snd w))); [lia|lia|done].
Qed.

(** *** [insert] *)

Lemma insert_wf w p e :
  wf w -> _count (snd w) < size (snd w) ->
  exists a a' l r,
    arrays (fst w) !! _storage (snd w) = Some a /\
    array_get a (_count (snd w) + 1) = VRef l /\
    records (fst w) !! l = Some r /\
    let rs' := <[l := {| priority := Some p; element := e |}]> (records (fst w)) in
    let w' := with_count (with_storage (with_records w rs') a') (_count (snd w) + 1) in
    insert p e w = Ok tt w' /\
    swapped 1 (_count (snd w) + 1) a a' /\
    wf w' /\
    same_slots w w' /\
    (valid_distinct w -> valid_distinct w').
Proof.
  intros (a & Ha & Hlen & Hn & Hv) Hroom.
  destruct (insert_spec w a p e) as (l & r & a' & Hl & Hr & Hrun & Hs & Hord);
    [done|done|lia|done|].
  exists a, a', l, r. do 3 (split; [done|]). intros rs' w'.
  assert (Z.of_nat (length a') = size (snd w) + 1) as Hlen'.
  { by rewrite (swapped_length _ _ _ _ Hs). }
  assert (valid_cells rs' a' (size (snd w))) as Hv'.
  { apply (valid_swapped _ a a' _ 1 (_count (snd w) + 1)); [lia|lia|done|].
    intros k Hk. apply record_at_insert_is_Some. by apply Hv. }
  split; [done|]. split; [done|]. split; [|split].
  - apply wf_after; eauto; lia.
  - apply (same_slots_after w a a' rs' _ 1 (_count (snd w) + 1)); auto.
    unfold rs'. by rewrite length_insert.
  - intros [(a0 & Ha0 & _ & _ & _ & Hnum & Hh) Hd].
    assert (a0 = a) as -> by congruence.
    rewrite (storage_of_lookup w a Ha) in Hd.
    destruct (Hord Hd Hnum Hh) as [Hnum' Hh'].
    split.
    + apply valid_after; eauto; lia.
    + unfold w'. rewrite storage_of_after by eauto. simpl.
      apply (distinct_swapped a a' _ 1 (_count (snd w) + 1)); [lia|lia|done|done].
Qed.

(** *** [sort] *)

Lemma sort_wf w :
  wf w ->
  exists a a',
    arrays (fst w) !! _storage (snd w) = Some a /\
    let w' := with_count (with_storage w a') 0 in
    sort w = Ok (_storage (snd w)) w' /\
    swapped 1 (_count (snd w)) a a' /\
    wf w' /\
    same_slots w w' /\
    valid w' /\
    (distinct_cells a (size (snd w)) -> distinct_cells a' (size (snd w))) /\
    (valid w ->
     forall i j, 1 <= i -> i <= j -> j <= _count (snd w) ->
       kz (records (fst w)) a' i <= kz (records (fst w)) a' j).
Proof.
  intros (a & Ha & Hlen & Hn & Hv).
  destruct (sort_spec w a) as (a' & Hrun & Hs & Hord);
    [done|lia|by eapply valid_cells_le; [|exact Hv]; lia|].
  assert (Z.of_nat (length a') = size (snd w) + 1) as Hlen'.
  { by rewrite (swapped_length _ _ _ _ Hs). }
  assert (valid_cells (records (fst w)) a' (size (snd w))) as Hv'.
  { apply (valid_swapped _ a a' _ 1 (_count (snd w))); [lia|lia|done|done]. }
  exists a, a'. split; [done|]. intros w'. split; [done|]. split; [done|].
  split; [|split; [|split; [|split]]].
  - apply (wf_after w a' (records (fst w))); eauto; lia.
  - apply (same_slots_after w a a' (records (fst w)) _ 1 (_count (snd w))); auto.
  - apply (valid_after w a' (records (fst w))); [eauto|done|lia|done| |].
    + intros k Hk. lia.
    + intros q c Hq Hc Hcn. lia.
  - apply (distinct_swapped a a' _ 1 (_count (snd w))); [lia|lia|done].
  - intros (a0 & Ha0 & _ & _ & _ & Hnum & Hh).
    assert (a0 = a) as -> by congruence.
    by apply Hord.
Qed.

(** *** The constructor with [fromArray] *)

Lemma constructor_fromArray_spec sz m arr a :
  arrays m !! arr = Some a ->
  record_array (records m) a ->
  exists a',
    let n := Z.of_nat (length a) - 1 in
    let w := (m, {| _storage := arr; size := n; _count := n |}) in
    constructor sz (Some arr) m = Ok tt (with_storage w a') /\
    _buildheap w = Ok tt (with_storage w a') /\
    swapped 1 n a a' /\
    valid (with_storage w a') /\
    (distinct_cells a n -> distinct_cells a' n).
Proof.
  intros Ha [Hlen Hnum].
  set (n := Z.of_nat (length a) - 1) in *.
  set (w := (m, {| _storage := arr; size := n; _count := n |})).
  destruct (_buildheap_spec w a) as (a' & Hrun & Hs & Hord);
    [done|simpl; lia|by apply numeric_valid|].
  simpl in Hs, Hord.
  exists a'. fold n w. split; [|split; [done|]; split; [done|]; split].
  - unfold constructor. rewrite Ha. fold n. exact Hrun.
  - apply (valid_after w a' (records m) n); simpl.
    + eauto.
    + rewrite (swapped_length _ _ _ _ Hs). lia.
    + lia.
    + apply (valid_swapped _ a a' _ 1 n); [lia|lia|done|by apply numeric_valid].
    + apply (numeric_swapped _ a a' _ 1 n); [lia|lia|done|done].
    + by apply Hord.
  - apply (distinct_swapped a a' _ 1 n); [lia|lia|done].
Qed.

(** *** Every reachable heap is valid *)

Lemma reachable_valid_distinct w :
  reachable distinct_record_array w -> valid_distinct w.
Proof.
  induction 1 as [sz m w Hsz Hrun|sz m arr a w Ha [Hra Hd] Hrun
                 |w p e w' _ IH Hrun|w p e err w' _ IH Hrun
                 |w x w' _ IH Hrun|w l w' _ IH Hrun].
  - by destruct (constructor_new_valid sz m w Hsz Hrun).
  - destruct (constructor_fromArray_spec sz m arr a Ha Hra)
      as (a' & Hrun' & _ & _ & Hv & Hd').
    rewrite Hrun' in Hrun. injection Hrun as <-. split; [done|].
    rewrite (storage_of_with_storage _ a a') by done.
    simpl. by apply Hd'.
  - pose proof (valid_wf w (proj1 IH)) as Hwf.
    destruct (decide (_count (snd w) < size (snd w))) as [Hroom|Hfull].
    + destruct (insert_wf w p e Hwf Hroom)
        as (a & a' & l & r & _ & _ & _ & Hrun' & _ & _ & _ & Hv).
      rewrite Hrun' in Hrun. injection Hrun as <-. by apply Hv.
    + rewrite insert_full in Hrun; [done|].
      destruct Hwf as (a & _ & _ & Hn & _). lia.
  - pose proof (valid_wf w (proj1 IH)) as Hwf.
    destruct (decide (_count (snd w) < size (snd w))) as [Hroom|Hfull].
    + destruct (insert_wf w p e Hwf Hroom)
        as (a & a' & l & r & _ & _ & _ & Hrun' & _).
      by rewrite Hrun' in Hrun.
    + rewrite insert_full in Hrun.
      * by injection Hrun as _ <-.
      * destruct Hwf as (a & _ & _ & Hn & _). lia.
  - pose proof (valid_wf w (proj1 IH)) as Hwf.
    destruct (decide (_count (snd w) = 0)) as [Hz|Hnz].
    + rewrite removeMax_empty in Hrun by done. by injection Hrun as _ <-.
    + destruct (removeMax_wf w Hwf) as (a & a' & r & Ha & Hrun' & _ & _ & _ & _ & _ & Hv & Hd).
      { destruct Hwf as (a & _ & _ & Hn & _). lia. }
      rewrite Hrun' in Hrun. injection Hrun as _ <-.
      destruct IH as [IHv IHd]. split; [by apply Hv|].
      rewrite storage_of_with_count, (storage_of_with_storage w a a') by done.
      simpl. apply Hd. by rewrite (storage_of_lookup w a Ha) in IHd.
  - pose proof (valid_wf w (proj1 IH)) as Hwf.
    destruct (sort_wf w Hwf) as (a & a' & Ha & Hrun' & _ & _ & _ & Hv & Hd & _).
    rewrite Hrun' in Hrun. injection Hrun as _ <-.
    destruct IH as [IHv IHd]. split; [done|].
    rewrite storage_of_with_count, (storage_of_with_storage w a a') by done.
    simpl. apply Hd. by rewrite (storage_of_lookup w a Ha) in IHd.
Qed.

(** *** Every reachable heap is well-formed, shared records or not *)

Lemma reachable_wf w : reachable record_array w -> wf w.
Proof.
  induction 1 as [sz m w Hsz Hrun|sz m arr a w Ha Hra Hrun
                 |w p e w' _ IH Hrun|w p e err w' _ IH Hrun
                 |w x w' _ IH Hrun|w l w' _ IH Hrun].
  - destruct (constructor_new_valid sz m w Hsz Hrun) as [[Hv _] _].
    by apply valid_wf.
  - destruct (constructor_fromArray_spec sz m arr a Ha Hra)
      as (a' & Hrun' & _ & _ & Hv & _).
    rewrite Hrun' in Hrun. injection Hrun as <-. by apply valid_wf.
  - destruct (decide (_count (snd w) < size (snd w))) as [Hroom|Hfull].
    + destruct (insert_wf w p e IH Hroom)
        as (a & a' & l & r & _ & _ & _ & Hrun' & _ & Hwf & _).
      rewrite Hrun' in Hrun. by injection Hrun as <-.
    + rewrite insert_full in Hrun; [done|].
      destruct IH as (a & _ & _ & Hn & _). lia.
  - destruct (decide (_count (snd w) < size (snd w))) as [Hroom|Hfull].
    + destruct (insert_wf w p e IH Hroom)
        as (a & a' & l & r & _ & _ & _ & Hrun' & _).
      by rewrite Hrun' in Hrun.
    + rewrite insert_full in Hrun.
      * by injection Hrun as _ <-.
      * destruct IH as (a & _ & _ & Hn & _). lia.
  - destruct (decide (_count (snd w) = 0)) as [Hz|Hnz].
    + rewrite removeMax_empty in Hrun by done. by injection Hrun as _ <-.
    + destruct (removeMax_wf w IH) as (a & a' & r & _ & Hrun' & _ & _ & _ & Hwf & _).
      { destruct IH as (a & _ & _ & Hn & _). lia. }
      rewrite Hrun' in Hrun. by injection Hrun as _ <-.
  - destruct (sort_wf w IH) as (a & a' & _ & Hrun' & _ & Hwf & _).
    rewrite Hrun' in Hrun. by injection Hrun as _ <-.
Qed.

End Worlds.

(** ** The loops always end

    [_sink] and [_float] are given as many turns as their loops can take,
    so the embedding never stops a loop that the program would continue:
    no method ever runs out of fuel, in any world. *)

Section Termination.

Context {E : Type}.

Implicit Types (m : mem E) (w : world E).

Lemma keeps_heap_bind {A B} (c : M E A) (k : A -> M E B) :
  keeps_heap c -> (forall x, keeps_heap (k x)) -> keeps_heap (bind c k).
Proof.
  intros Hc Hk w. unfold bind. specialize (Hc w).
  destruct (c w) as [x w1|e w1|]; [|done|done].
  specialize (Hk x w1). destruct (k x w1); congruence.
Qed.

Lemma keeps_heap_ret {A} (x : A) : keeps_heap (ret (E := E) x).
Proof. by intros w. Qed.

Lemma keeps_heap_storage_get i : keeps_heap (storage_get (E := E) i).
Proof. intros w. unfold storage_get. by destruct (_ !! _). Qed.

Lemma keeps_heap_storage_set i v : keeps_heap (storage_set (E := E) i v).
Proof. intros w. unfold storage_set. by destruct (_ !! _). Qed.

Lemma keeps_heap_deref v : keeps_heap (deref (E := E) v).
Proof.
  intros w. unfold deref. destruct v as [| |l]; try done. by destruct (_ !! _).
Qed.

Lemma keeps_heap_storage_priority i : keeps_heap (storage_priority (E := E) i).
Proof.
  unfold storage_priority.
  apply keeps_heap_bind; [apply keeps_heap_storage_get|]. intros v.
  apply keeps_heap_bind; [apply keeps_heap_deref|]. intros lr.
  apply keeps_heap_ret.
Qed.

Lemma keeps_heap_storage_element i : keeps_heap (storage_element (E := E) i).
Proof.
  unfold storage_element.
  apply keeps_heap_bind; [apply keeps_heap_storage_get|]. intros v.
  apply keeps_heap_bind; [apply keeps_heap_deref|]. intros lr.
  apply keeps_heap_ret.
Qed.

Lemma keeps_heap_storage_set_priority i p :
  keeps_heap (storage_set_priority (E := E) i p).
Proof.
  unfold storage_set_priority.
  apply keeps_heap_bind; [apply keeps_heap_storage_get|]. intros v.
  apply keeps_heap_bind; [apply keeps_heap_deref|]. by intros lr w.
Qed.

Lemma keeps_heap_storage_set_element i e :
  keeps_heap (storage_set_element (E := E) i e).
Proof.
  unfold storage_set_element.
  apply keeps_heap_bind; [apply keeps_heap_storage_get|]. intros v.
  apply keeps_heap_bind; [apply keeps_heap_deref|]. by intros lr w.
Qed.

Lemma keeps_heap_swap i j : keeps_heap (_swap (E := E) i j).
Proof.
  unfold _swap.
  apply keeps_heap_bind; [apply keeps_heap_storage_get|]. intros vi.
  apply keeps_heap_bind; [apply keeps_heap_storage_get|]. intros vj.
  apply keeps_heap_bind; [apply keeps_heap_storage_set|]. intros _.
  apply keeps_heap_storage_set.
Qed.

Lemma storage_priority_reads i w :
  match storage_priority i w with
  | Ok _ w' => w' = w
  | Throw _ w' => w' = w
  | OutOfFuel => False
  end.
Proof.
  unfold storage_priority, bind, storage_get.
  destruct (arrays (fst w) !! _storage (snd w)) as [a|]; [|done].
  unfold deref. destruct (array_get a i) as [| |l]; try done.
  by destruct (records (fst w) !! l).
Qed.

(** A test of [_sink] keeps [max] or moves it to a child inside the
    count. *)
Lemma sink_pick_cases max c w :
  match sink_pick max c w with
  | Ok mx w' => w' = w /\ (mx = max \/ (mx = c /\ 0 < c <= _count (snd w)))
  | Throw _ w' => snd w' = snd w
  | OutOfFuel => False
  end.
Proof.
  unfold sink_pick, bind, this, _inCountBounds.
  destruct (Z.ltb_spec 0 c); simpl; [|by auto].
  destruct (Z.leb_spec c (_count (snd w))); simpl; [|by auto].
  pose proof (storage_priority_reads max w) as H1.
  destruct (storage_priority max w) as [pm w1|e w1|]; [|by subst|done].
  subst w1.
  pose proof (storage_priority_reads c w) as H2.
  destruct (storage_priority c w) as [pc w2|e w2|]; [|by subst|done].
  subst w2. unfold ret. split; [done|]. destruct (js_lt pm pc); auto.
Qed.

Lemma sink_max_cases i w :
  match sink_max i w with
  | Ok mx w' => w' = w /\ (mx = i \/ (i < mx /\ mx <= _count (snd w)))
  | Throw _ w' => snd w' = snd w
  | OutOfFuel => False
  end.
Proof.
  unfold sink_max, bind.
  pose proof (sink_pick_cases i (_left i) w) as H1.
  destruct (sink_pick i (_left i) w) as [m1 w1|e w1|]; [|done|done].
  destruct H1 as [-> H1].
  pose proof (sink_pick_cases m1 (_right i) w) as H2.
  destruct (sink_pick m1 (_right i) w) as [m2 w2|e w2|]; [|done|done].
  destruct H2 as [-> H2]. split; [done|].
  unfold _left, _right in *. lia.
Qed.

Lemma sink_loop_keeps_heap fuel : forall i w,
  (Z.to_nat (_count (snd w) - i) < fuel)%nat ->
  match sink_loop fuel i w with
  | Ok _ w' => snd w' = snd w
  | Throw _ w' => snd w' = snd w
  | OutOfFuel => False
  end.
Proof.
  induction fuel as [|fuel IH]; intros i w Hfuel; [lia|].
  cbn [sink_loop]. unfold bind at 1.
  pose proof (sink_max_cases i w) as Hmx.
  destruct (sink_max i w) as [mx w1|e w1|]; [|done|done].
  destruct Hmx as [-> Hmx].
  destruct (Z.eqb_spec mx i) as [->|Hne]; [done|].
  unfold bind. pose proof (keeps_heap_swap i mx w) as Hsw.
  destruct (_swap i mx w) as [[] w2|e w2|]; [|done|done].
  specialize (IH mx w2). rewrite Hsw in IH. apply IH. lia.
Qed.

Lemma keeps_heap_sink i : keeps_heap (_sink (E := E) i).
Proof.
  intros w. unfold _sink, bind, this. apply sink_loop_keeps_heap. lia.
Qed.

Lemma float_loop_keeps_heap fuel : forall i w,
  (Z.to_nat i < fuel)%nat ->
  match float_loop fuel i (_parent i) w with
  | Ok _ w' => snd w' = snd w
  | Throw _ w' => snd w' = snd w
  | OutOfFuel => False
  end.
Proof.
  induction fuel as [|fuel IH]; intros i w Hfuel; [lia|].
  cbn [float_loop]. unfold bind at 1. unfold this. unfold _inSizeBounds.
  pose proof (parent_bounds i) as Hp.
  destruct (Z.ltb_spec 0 (_parent i)); simpl; [|done].
  destruct (Z.leb_spec (_parent i) (size (snd w))); simpl; [|done].
  unfold bind at 1. pose proof (keeps_heap_storage_priority i w) as H1.
  destruct (storage_priority i w) as [p1 w1|e w1|]; [|done|done].
  unfold bind at 1. pose proof (keeps_heap_storage_priority (_parent i) w1) as H2.
  destruct (storage_priority (_parent i) w1) as [p2 w2|e w2|]; [|congruence|done].
  destruct (js_gt p1 p2); [|unfold ret; congruence].
  unfold bind. pose proof (keeps_heap_swap i (_parent i) w2) as H3.
  destruct (_swap i (_parent i) w2) as [[] w3|e w3|]; [|congruence|done].
  specialize (IH (_parent i) w3).
  destruct (float_loop fuel (_parent i) (_parent (_parent i)) w3);
    try (rewrite IH by lia; congruence).
  apply IH. lia.
Qed.

Lemma keeps_heap_float i : keeps_heap (_float (E := E) i).
Proof. intros w. unfold _float. apply float_loop_keeps_heap. lia. Qed.

Lemma terminates_bind {A B} (c : M E A) (k : A -> M E B) :
  terminates c -> (forall x, terminates (k x)) -> terminates (bind c k).
Proof.
  intros Hc Hk w. unfold bind. specialize (Hc w).
  destruct (c w) as [x w1|e w1|]; [apply Hk|done|done].
Qed.

Lemma keeps_heap_terminates {A} (c : M E A) : keeps_heap c -> terminates c.
Proof. intros Hc w Hw. specialize (Hc w). by rewrite Hw in Hc. Qed.

Lemma terminates_buildheap_loop k : terminates (buildheap_loop (E := E) k).
Proof.
  induction k as [|k IH]; [done|]. cbn [buildheap_loop].
  apply terminates_bind; [apply keeps_heap_terminates, keeps_heap_sink|done].
Qed.

Lemma terminates_insert p e : terminates (insert (E := E) p e).
Proof.
  unfold insert. apply terminates_bind; [done|]. intros h.
  destruct (negb _); [done|].
  apply terminates_bind;
    [apply keeps_heap_terminates, keeps_heap_storage_set_priority|]. intros _.
  apply terminates_bind;
    [apply keeps_heap_terminates, keeps_heap_storage_set_element|]. intros _.
  apply terminates_bind; [apply keeps_heap_terminates, keeps_heap_float|]. intros _.
  apply terminates_bind; done.
Qed.

Lemma terminates_removeMax : terminates (removeMax (E := E)).
Proof.
  unfold removeMax. apply terminates_bind; [done|]. intros h.
  destruct (_ =? _); [done|].
  apply terminates_bind; [apply keeps_heap_terminates, keeps_heap_swap|]. intros _.
  apply terminates_bind; [done|]. intros _.
  apply terminates_bind; [apply keeps_heap_terminates, keeps_heap_sink|]. intros _.
  apply keeps_heap_terminates, keeps_heap_storage_element.
Qed.

Lemma terminates_removeMax_times k : terminates (removeMax_times (E := E) k).
Proof.
  induction k as [|k IH]; [done|]. cbn [removeMax_times].
  apply terminates_bind; [apply terminates_removeMax|done].
Qed.

Lemma terminates_sort : terminates (sort (E := E)).
Proof.
  unfold sort. apply terminates_bind; [done|]. intros h.
  apply terminates_bind; [apply terminates_removeMax_times|]. intros _.
  apply terminates_bind; done.
Qed.

Lemma constructor_terminates sz fromArray m :
  constructor (E := E) sz fromArray m <> OutOfFuel.
Proof.
  unfold constructor. destruct fromArray as [arr|].
  - destruct (arrays m !! arr) as [a|]; [|done].
    unfold _buildheap. apply terminates_bind; [done|]. intros h.
    apply terminates_buildheap_loop.
  - by destruct (push_slots _ _ _).
Qed.

Lemma heapsort_terminates arr m : heapsort (E := E) arr m <> OutOfFuel.
Proof.
  unfold heapsort. pose proof (constructor_terminates None (Some arr) m) as Hc.
  destruct (constructor None (Some arr) m) as [[] w| |]; [|done|done].
  pose proof (terminates_sort w) as Hs. by destruct (sort w).
Qed.

End Termination.

(** ** The claims of the specification *)

Section Claims.

Context {E : Type}.

Implicit Types (m : mem E) (w : world E) (rs : list (record E)).
Implicit Types (a : list value) (v : value).

(** C4.  On a heap whose count equals its capacity, [insert] fails with
    the capacity error and has no effect: the world it leaves is the world
    it found, so the count and every storage slot (and every record) are
    unchanged. *)
Theorem insert_full_heap_throws w p e :
  _count (snd w) = size (snd w) ->
  insert p e w = Throw HeapFull w.
Proof. intros Hfull. apply insert_full. lia. Qed.

(** C5.  On a heap whose count is 0, [removeMax] returns [undefined], the
    empty indicator, as a normal result and not as an exception, and leaves
    the world, hence the count, as it was. *)
Theorem removeMax_empty_heap w :
  _count (snd w) = 0 ->
  exists w', removeMax w = Ok None w' /\ w' = w /\ _count (snd w') = 0.
Proof.
  intros Hc. exists w. split; [|done]. unfold removeMax, bind, this. by rewrite Hc.
Qed.

(** C6.  [count()] returns the number of records present and changes
    nothing; it is 0 right after the construction of an empty heap and
    right after [sort()]; an [insert] that succeeds raises it by exactly 1
    (and every [insert] into a heap with room succeeds), and [removeMax] on
    a heap that is not empty lowers it by exactly 1. *)
Theorem count_consistent w :
  wf w ->
  count w = Ok (_count (snd w)) w /\
  (forall sz m, exists w0,
     constructor sz None m = Ok tt w0 /\ count w0 = Ok 0 w0) /\
  (exists w', sort w = Ok (_storage (snd w)) w' /\ count w' = Ok 0 w') /\
  (forall p e, _count (snd w) < size (snd w) ->
     exists w', insert p e w = Ok tt w' /\
                count w' = Ok (_count (snd w) + 1) w') /\
  (forall p e w', insert p e w = Ok tt w' ->
     _count (snd w') = _count (snd w) + 1) /\
  (_count (snd w) <> 0 ->
     exists x w', removeMax w = Ok x w' /\
                  count w' = Ok (_count (snd w) - 1) w').
Proof.
  intros Hwf. split; [done|]. split; [|split; [|split; [|split]]].
  - intros sz m. rewrite constructor_new_eq. eexists. split; [done|]. done.
  - destruct (sort_wf w Hwf) as (a & a' & _ & Hrun & _).
    eexists. split; [exact Hrun|]. done.
  - intros p e Hroom.
    destruct (insert_wf w p e Hwf Hroom) as (a & a' & l & r & _ & _ & _ & Hrun & _).
    eexists. split; [exact Hrun|]. done.
  - intros p e w' Hrun.
    destruct (decide (_count (snd w) < size (snd w))) as [Hroom|Hfull].
    + destruct (insert_wf w p e Hwf Hroom) as (a & a' & l & r & _ & _ & _ & Hrun' & _).
      rewrite Hrun' in Hrun. by injection Hrun as <-.
    + rewrite insert_full in Hrun; [done|].
      destruct Hwf as (a & _ & _ & Hn & _). lia.
  - intros Hne.
    destruct (removeMax_wf w Hwf) as (a & a' & r & _ & Hrun & _).
    { destruct Hwf as (a & _ & _ & Hn & _). lia. }
    eexists _, _. split; [exact Hrun|]. done.
Qed.

(** C10.  Whatever a public operation leaves behind, by returning or by
    throwing, the storage is the same array with [size + 1] cells, the
    size is the same, and no array or record was allocated; the cells are
    those it had, possibly in another order. *)
Theorem storage_length_fixed w :
  wf w ->
  (forall p e, exists w', after (insert p e w) = Some w' /\ same_slots w w') /\
  (exists w', after (removeMax w) = Some w' /\ same_slots w w') /\
  (exists w', after (count w) = Some w' /\ same_slots w w') /\
  (exists w', after (sort w) = Some w' /\ same_slots w w').
Proof.
  intros Hwf. pose proof (same_slots_refl w Hwf) as Hrefl.
  split; [|split; [|split]].
  - intros p e.
    destruct (decide (_count (snd w) < size (snd w))) as [Hroom|Hfull].
    + destruct (insert_wf w p e Hwf Hroom)
        as (a & a' & l & r & _ & _ & _ & Hrun & _ & _ & Hsame & _).
      rewrite Hrun. eexists. split; [done|]. exact Hsame.
    + rewrite insert_full.
      * by exists w.
      * destruct Hwf as (a & _ & _ & Hn & _). lia.
  - destruct (decide (_count (snd w) = 0)) as [Hz|Hnz].
    + rewrite removeMax_empty by done. by exists w.
    + destruct (removeMax_wf w Hwf) as (a & a' & r & _ & Hrun & _ & _ & _ & _ & Hsame & _).
      { destruct Hwf as (a & _ & _ & Hn & _). lia. }
      rewrite Hrun. eexists. split; [done|]. exact Hsame.
  - by exists w.
  - destruct (sort_wf w Hwf) as (a & a' & _ & Hrun & _ & _ & Hsame & _).
    rewrite Hrun. eexists. split; [done|]. exact Hsame.
Qed.

(** C2 (as amended).  The max-heap invariant holds after every completed
    public operation, for every heap reachable by construction, [insert],
    [removeMax] and [sort] from an empty heap of capacity at least 0 or
    from an array whose cells [1..n] refer to pairwise different records
    with a number for priority. *)
Theorem heap_property_reachable w :
  reachable distinct_record_array w -> heap_property w.
Proof.
  intros Hr. apply valid_heap_property.
  by destruct (reachable_valid_distinct w Hr).
Qed.

Lemma sort_unfold w :
  sort w =
    match removeMax_times (Z.to_nat (_count (snd w))) w with
    | Ok _ w' => Ok (_storage (snd w')) w'
    | Throw e w' => Throw e w'
    | OutOfFuel => OutOfFuel
    end.
Proof. done. Qed.

Lemma buildheap_loop_sink_all k w :
  buildheap_loop k w = sink_all (countdown k) w.
Proof.
  revert w. induction k as [|k IH]; intros w; [done|].
  cbn [buildheap_loop countdown sink_all]. unfold bind.
  destruct (_sink (Z.of_nat (S k)) w); auto.
Qed.

(** C1.  Given an array with a sentinel at index 0 and, from index 1 on,
    references to records with a number for priority, [heapsort] returns
    normally; it allocates nothing and changes no record: the memory it
    leaves differs from the one it found in the contents of that array
    alone.  The array keeps its length and its sentinel, its cells
    [1..n] are a permutation of those it had, and their priorities are in
    non-decreasing order. *)
Theorem heapsort_sorts_in_place m array cells :
  arrays m !! array = Some cells ->
  record_array (records m) cells ->
  exists cells' h,
    heapsort array m =
      Ok tt ({| arrays := <[array := cells']> (arrays m);
                records := records m |}, h) /\
    length cells' = length cells /\
    array_get cells' 0 = array_get cells 0 /\
    drop 1 cells' ≡ₚ drop 1 cells /\
    forall i j, 1 <= i -> i <= j -> j < Z.of_nat (length cells) ->
      prio_ge (prio_at (records m) (array_get cells' j))
              (prio_at (records m) (array_get cells' i)).
Proof.
  intros Ha Hra.
  destruct (constructor_fromArray_spec None m array cells Ha Hra)
    as (a1 & Hctor & _ & Hs1 & Hv1 & _).
  set (n := Z.of_nat (length cells) - 1) in *.
  set (w0 := (m, {| _storage := array; size := n; _count := n |})) in *.
  set (w1 := with_storage w0 a1) in *.
  destruct (sort_wf w1 (valid_wf w1 Hv1))
    as (a1' & a2 & Ha1 & Hsort & Hs2 & _ & _ & _ & _ & Hsorted).
  assert (a1' = a1) as ->.
  { unfold w1 in Ha1. simpl in Ha1.
    rewrite list_lookup_insert_eq in Ha1 by (by eapply lookup_lt_Some).
    congruence. }
  simpl in Hsort, Hs2, Hsorted.
  assert (swapped 1 n cells a2) as Hs by (by eapply swapped_trans).
  exists a2, {| _storage := array; size := n; _count := 0 |}.
  split; [|split; [|split; [|split]]].
  - unfold heapsort. rewrite Hctor. fold w1. rewrite Hsort.
    unfold w1, w0, with_count, with_storage. simpl.
    by rewrite list_insert_insert_eq.
  - by apply (swapped_length 1 n).
  - apply (swapped_outside 1 n); [done|lia].
  - by apply (swapped_tail n).
  - intros i j Hi Hij Hj.
    destruct Hra as [_ Hnum]. fold n in Hnum.
    assert (numeric_cells (records m) a2 n) as Hnum2.
    { apply (numeric_swapped _ cells a2 n 1 n); [lia|lia|done|done]. }
    apply prio_ge_kz; [apply Hnum2; lia|apply Hnum2; lia|].
    apply Hsorted; [done|done|done|lia].
Qed.

(** C7.  On a valid heap holding [n] records, [sort()] is [n] calls of
    [removeMax] followed by the return of the storage reference itself;
    afterwards the count is 0, no record has changed, the cells [1..n] are
    a permutation of the cells [1..n] before the call, and their priorities
    ascend from index 1 to index [n]. *)
Theorem sort_ascending w :
  valid w ->
  exists w',
    sort w = Ok (_storage (snd w)) w' /\
    removeMax_times (Z.to_nat (_count (snd w))) w = Ok tt w' /\
    _storage (snd w') = _storage (snd w) /\
    _count (snd w') = 0 /\
    records (fst w') = records (fst w) /\
    take (Z.to_nat (_count (snd w))) (drop 1 (storage_of w')) ≡ₚ
      take (Z.to_nat (_count (snd w))) (drop 1 (storage_of w)) /\
    forall i j, 1 <= i -> i <= j -> j <= _count (snd w) ->
      prio_ge (prio w' j) (prio w' i).
Proof.
  intros Hv.
  destruct (sort_wf w (valid_wf w Hv))
    as (a & a' & Ha & Hsort & Hs & _ & _ & _ & _ & Hsorted).
  specialize (Hsorted Hv).
  destruct Hv as (a0 & Ha0 & _ & Hn & _ & Hnum & _).
  assert (a0 = a) as -> by congruence.
  eexists. split; [exact Hsort|]. split; [|split; [done|]; split; [done|]; split; [done|]; split].
  - rewrite sort_unfold in Hsort.
    destruct (removeMax_times _ w) as [[] w'| |]; [|done|done].
    by injection Hsort as _ ->.
  - rewrite storage_of_with_count, (storage_of_with_storage w a a') by done.
    rewrite (storage_of_lookup w a Ha).
    apply (swapped_window 1 (_count (snd w))); [lia|lia|done].
  - intros i j Hi Hij Hj. unfold prio.
    rewrite storage_of_with_count, (storage_of_with_storage w a a') by done.
    simpl.
    assert (numeric_cells (records (fst w)) a' (_count (snd w))) as Hnum'.
    { apply (numeric_swapped _ a a' _ 1 (_count (snd w))); [lia|lia|done|done]. }
    apply prio_ge_kz; [apply Hnum'; lia|apply Hnum'; lia|].
    by apply Hsorted.
Qed.

(** C8.  The constructor given [fromArray] adopts that array as storage:
    the heap object points to it and the memory differs from the one found
    in the contents of that array alone.  Capacity and count are both
    [length - 1].  The call is [_sink(i)] for [i] from [count / 2] (rounded
    down) to 1.  Afterwards the cells [1..n] are a permutation of the input
    cells and the record at index 1 has a priority no smaller than that of
    any input record; built from [[_, 5, 1, 9, 3]], index 1 holds
    priority 9. *)
Theorem constructor_fromArray_heapifies sz m arr cells :
  arrays m !! arr = Some cells ->
  record_array (records m) cells ->
  let n := Z.of_nat (length cells) - 1 in
  let h := {| _storage := arr; size := n; _count := n |} in
  (exists cells',
     constructor sz (Some arr) m =
       Ok tt ({| arrays := <[arr := cells']> (arrays m);
                 records := records m |}, h) /\
     length cells' = length cells /\
     drop 1 cells' ≡ₚ drop 1 cells /\
     forall i, 1 <= i <= n ->
       prio_ge (prio_at (records m) (array_get cells' 1))
               (prio_at (records m) (array_get cells i))) /\
  constructor sz (Some arr) m = sink_all (countdown (Z.to_nat (n / 2))) (m, h) /\
  (exists w, constructor None (Some 0%nat) mem_5193 = Ok tt w /\
             prio w 1 = Some 9).
Proof.
  intros Ha Hra n h.
  destruct (constructor_fromArray_spec sz m arr cells Ha Hra)
    as (a' & Hctor & Hbuild & Hs & Hv & _).
  fold n h in Hctor, Hbuild, Hs, Hv.
  split; [|split].
  - exists a'. split; [exact Hctor|]. split; [by apply (swapped_length 1 n)|].
    split; [by apply (swapped_tail n)|].
    intros i Hi.
    destruct Hv as (a0 & Ha0 & _ & _ & _ & Hnum & Hh).
    simpl in Ha0, Hnum, Hh.
    rewrite list_lookup_insert_eq in Ha0 by (by eapply lookup_lt_Some).
    injection Ha0 as <-.
    destruct (swapped_inside_rev 1 n cells a' i Hs Hi) as (k & Hk & ->).
    apply prio_ge_kz; [apply Hnum; lia|apply Hnum; lia|].
    by apply (heap_from_root _ n).
  - unfold constructor. rewrite Ha. fold n h.
    unfold _buildheap, bind, this. simpl. apply buildheap_loop_sink_all.
  - eexists. split; [vm_compute; reflexivity|]. vm_compute. reflexivity.
Qed.

(** C9 (as amended).  In one turn of [_sink] at [i] with both children
    inside the count, the right child is the swap target exactly when its
    priority is strictly greater than that of the tracked maximum (the left
    child if it is strictly greater than [i], else [i]).  When the children
    have equal priority the right child is therefore never the target: the
    left child is, if its priority is strictly greater than that of [i],
    and otherwise nothing is swapped. *)
Theorem sink_tie_break w a i :
  arrays (fst w) !! _storage (snd w) = Some a ->
  numeric_cells (records (fst w)) a (_count (snd w)) ->
  1 <= i -> _right i <= _count (snd w) ->
  let f := kz (records (fst w)) a in
  let tracked := if f i <? f (_left i) then _left i else i in
  exists mx,
    sink_max i w = Ok mx w /\
    mx = (if f tracked <? f (_right i) then _right i else tracked) /\
    (f (_left i) = f (_right i) ->
     mx <> _right i /\ mx = (if f i <? f (_left i) then _left i else i)).
Proof.
  intros Ha Hnum Hi Hr f tracked. unfold _left, _right in *.
  set (n := _count (snd w)) in *. set (rs := records (fst w)) in *.
  rewrite (sink_max_ok w a) by (done || by apply numeric_valid). fold n rs.
  eexists. split; [done|].
  assert (forall k, 1 <= k <= n -> prio_at rs (array_get a k) = Some (f k)) as Hf.
  { intros k Hk. by apply prio_at_kz, Hnum. }
  unfold max_of, pick, _left, _right.
  destruct (Z.ltb_spec 0 (2 * i)); [|lia].
  destruct (Z.leb_spec (2 * i) n); [|lia].
  destruct (Z.ltb_spec 0 (2 * i + 1)); [|lia].
  destruct (Z.leb_spec (2 * i + 1) n); [|lia]. simpl.
  rewrite (Hf i), (Hf (2 * i)), js_lt_Some by lia.
  fold tracked.
  assert (1 <= tracked <= n) as Ht.
  { unfold tracked. destruct (f i <? f (2 * i)); lia. }
  rewrite (Hf tracked), (Hf (2 * i + 1)), js_lt_Some by lia.
  split; [done|]. intros Heq.
  assert ((f tracked <? f (2 * i + 1)) = false) as ->.
  { apply Z.ltb_ge. unfold tracked.
    destruct (Z.ltb_spec (f i) (f (2 * i))); lia. }
  split; [|done]. unfold tracked. destruct (f i <? f (2 * i)); lia.
Qed.

Lemma insert_all_valid ps : forall w w1,
  valid_distinct w -> insert_all ps w = Ok tt w1 -> valid_distinct w1.
Proof.
  induction ps as [|[p e] ps IH]; intros w w1 Hv Hrun.
  - by injection Hrun as <-.
  - cbn [insert_all fst snd] in Hrun. unfold bind in Hrun.
    pose proof (valid_wf w (proj1 Hv)) as Hwf.
    destruct (decide (_count (snd w) < size (snd w))) as [Hroom|Hfull].
    + destruct (insert_wf w p e Hwf Hroom)
        as (a & a' & l & r & _ & _ & _ & Hrun' & _ & _ & _ & Hv').
      rewrite Hrun' in Hrun. eapply IH; [|exact Hrun]. by apply Hv'.
    + rewrite insert_full in Hrun; [done|].
      destruct Hwf as (a & _ & _ & Hn & _). lia.
Qed.

Lemma prio_ge_Some_le x y q : x <= y -> prio_ge (Some x) q -> prio_ge (Some y) q.
Proof. destruct q; simpl; [lia|done]. Qed.

Lemma drain_spec k : forall w,
  valid w ->
  exists out w',
    drain k w = Ok out w' /\
    valid w' /\
    length out = Nat.min k (Z.to_nat (_count (snd w))) /\
    _count (snd w') = _count (snd w) - Z.of_nat (length out) /\
    StronglySorted prio_ge (map snd out) /\
    Forall (prio_ge (Some (kz (records (fst w)) (storage_of w) 1))) (map snd out).
Proof.
  induction k as [|k IH]; intros w Hv.
  - exists [], w. simpl. repeat split; try done; try lia; constructor.
  - cbn [drain]. unfold bind at 1. unfold this.
    destruct (Z.eqb_spec (_count (snd w)) 0) as [Hz|Hnz].
    + exists [], w. simpl. rewrite Hz. repeat split; try done; try lia; constructor.
    + pose proof (valid_wf w Hv) as Hwf.
      assert (1 <= _count (snd w)) as Hpos.
      { destruct Hwf as (a & _ & _ & Hn & _). lia. }
      destruct (removeMax_wf w Hwf Hpos)
        as (a & a' & r & Ha & Hrun & Hr & Hlast & Hs & _ & _ & Hv' & _).
      specialize (Hv' Hv).
      set (n := _count (snd w)) in *. set (rs := records (fst w)) in *.
      set (w1 := with_count (with_storage w a') (n - 1)) in *.
      destruct Hv as (a0 & Ha0 & Hlen & Hn & Hvc & Hnum & Hh).
      assert (a0 = a) as -> by congruence. fold n rs in Hnum, Hh.
      destruct (IH w1 Hv') as (out & w2 & Hdrain & Hv2 & Hlen2 & Hc2 & Hsorted & Hbound).
      simpl in Hlen2, Hc2, Hbound. fold rs in Hbound.
      assert (storage_of w1 = a') as Hsto.
      { unfold w1. by rewrite storage_of_with_count, (storage_of_with_storage w a a'). }
      rewrite Hsto in Hbound.
      assert (prio_at rs (array_get a' n) = Some (kz rs a 1)) as Hp.
      { rewrite Hlast. apply prio_at_kz, Hnum. lia. }
      exists ((element r, Some (kz rs a 1)) :: out), w2.
      rewrite (storage_of_lookup w a Ha).
      split; [|split; [done|]; split; [|split; [|split]]].
      * unfold bind. rewrite Hrun. fold w1.
        rewrite (storage_priority_ok w1 a' n).
        -- fold rs. simpl records. fold rs. rewrite Hp, Hdrain. done.
        -- unfold w1. simpl. apply list_lookup_insert_eq. by eapply lookup_lt_Some.
        -- simpl. fold rs. rewrite Hlast, Hr. eauto.
      * cbn [length]. lia.
      * cbn [length]. lia.
      * assert (Forall (prio_ge (Some (kz rs a 1))) (map snd out)) as Hb.
        { destruct (decide (n = 1)) as [Hn1|Hn1].
          - assert (out = []) as ->; [|constructor].
            apply length_zero_iff_nil. lia.
          - eapply Forall_impl; [exact Hbound|].
            intros q. apply prio_ge_Some_le.
            destruct (kz_swapped_inside rs 1 n a a' 1 Hs) as (k' & Hk' & ->); [lia|].
            apply (heap_from_root _ n); [exact Hh|lia]. }
        simpl. constructor; [done|]. exact Hb.
      * simpl. constructor; [simpl; lia|].
        destruct (decide (n = 1)) as [Hn1|Hn1].
        -- assert (out = []) as ->; [|constructor].
           apply length_zero_iff_nil. lia.
        -- eapply Forall_impl; [exact Hbound|].
           intros q. apply prio_ge_Some_le.
           destruct (kz_swapped_inside rs 1 n a a' 1 Hs) as (k' & Hk' & ->); [lia|].
           apply (heap_from_root _ n); [exact Hh|lia].
Qed.

(** C3.  After any sequence of [insert] calls that all succeed, the
    records that successive [removeMax] calls extract from the heap, while
    it is not empty, have priorities in non-increasing order.  The inserts
    may start from any valid heap no record of which sits in two cells;
    every heap reachable from an empty one is such a heap
    ([reachable_valid_distinct]).  With
    priorities 5, 3, 8, 1 inserted into an empty heap of capacity 4, four
    [removeMax] calls return the elements inserted with 8, 5, 3, 1, in
    that order. *)
Theorem removeMax_order w ps w1 k :
  valid_distinct w ->
  insert_all ps w = Ok tt w1 ->
  (exists out w2,
     drain k w1 = Ok out w2 /\
     length out = Nat.min k (Z.to_nat (_count (snd w1))) /\
     StronglySorted prio_ge (map snd out)) /\
  (forall e5 e3 e8 e1,
     exists w2,
       and_then
         (and_then (constructor (Some 4) None empty_mem)
            (insert_all [(5, e5); (3, e3); (8, e8); (1, e1)]))
         (drain 4) =
       Ok [(e8, Some 8); (e5, Some 5); (e3, Some 3); (e1, Some 1)] w2).
Proof.
  intros Hv Hrun. split.
  - pose proof (insert_all_valid ps w w1 Hv Hrun) as [Hv1 _].
    destruct (drain_spec k w1 Hv1) as (out & w2 & Hdrain & _ & Hlen & _ & Hsorted & _).
    by exists out, w2.
  - intros e5 e3 e8 e1. eexists. vm_compute. reflexivity.
Qed.

End Claims.

(** ** Further properties of the operations *)

Section Further.

Context {E : Type}.

Implicit Types (m : mem E) (w : world E) (rs : list (record E)).
Implicit Types (a : list value) (v : value).

(** The cells [1..n] are the cells [1..n-1] and the cell [n]. *)
Lemma take_cells_snoc a (n : Z) :
  1 <= n < Z.of_nat (length a) ->
  take (Z.to_nat n) (drop 1 a) =
    take (Z.to_nat (n - 1)) (drop 1 a) ++ [array_get a n].
Proof.
  intros Hn. replace (Z.to_nat n) with (S (Z.to_nat (n - 1))) by lia.
  apply take_S_r. rewrite lookup_drop.
  replace (1 + Z.to_nat (n - 1))%nat with (Z.to_nat n) by lia.
  apply array_get_lookup. lia.
Qed.

Lemma removed_cells_Permutation a a' (n : Z) :
  1 <= n < Z.of_nat (length a) ->
  swapped 1 n a a' ->
  array_get a' n = array_get a 1 ->
  array_get a 1 :: take (Z.to_nat (n - 1)) (drop 1 a') ≡ₚ
    take (Z.to_nat n) (drop 1 a).
Proof.
  intros Hn Hs Hlast.
  rewrite <- (swapped_window 1 n a a' 1 (Z.to_nat n)) by (lia || done).
  rewrite (take_cells_snoc a' n) by (rewrite (swapped_length _ _ _ _ Hs); lia).
  rewrite Hlast. apply Permutation_cons_append.
Qed.

(** What [removeMax] does to the cells of a heap that is not empty: the
    record of cell 1 moves to cell [count] and the other live cells are
    permuted among the cells [1..count-1]. *)
Lemma removeMax_cells w :
  wf w -> 1 <= _count (snd w) ->
  exists a a' r,
    arrays (fst w) !! _storage (snd w) = Some a /\
    removeMax w =
      Ok (element r) (with_count (with_storage w a') (_count (snd w) - 1)) /\
    record_at (records (fst w)) (array_get a 1) = Some r /\
    array_get a' (_count (snd w)) = array_get a 1 /\
    swapped 1 (_count (snd w)) a a' /\
    array_get a 1 :: take (Z.to_nat (_count (snd w) - 1)) (drop 1 a') ≡ₚ
      take (Z.to_nat (_count (snd w))) (drop 1 a).
Proof.
  intros Hwf Hpos.
  destruct (removeMax_wf w Hwf Hpos)
    as (a & a' & r & Ha & Hrun & Hr & Hlast & Hs & _).
  exists a, a', r. do 5 (split; [done|]).
  destruct Hwf as (a0 & Ha0 & Hlen & Hn & _).
  assert (a0 = a) as -> by congruence.
  apply removed_cells_Permutation; [lia|done|done].
Qed.

(** X1.  On a valid heap that is not empty, [removeMax] returns the element
    of the record that sat in cell 1; no live record has a larger priority.
    Afterwards the count is one less, no record has changed, that record
    sits in the cell just past the new count, and the live cells are the
    former live cells without it, in some order. *)
Theorem removeMax_returns_max w :
  valid w -> 1 <= _count (snd w) ->
  exists r w',
    removeMax w = Ok (element r) w' /\
    record_at (records (fst w)) (array_get (storage_of w) 1) = Some r /\
    (forall k, 1 <= k <= _count (snd w) -> prio_ge (priority r) (prio w k)) /\
    _count (snd w') = _count (snd w) - 1 /\
    records (fst w') = records (fst w) /\
    array_get (storage_of w') (_count (snd w)) = array_get (storage_of w) 1 /\
    array_get (storage_of w) 1 :: live_cells w' ≡ₚ live_cells w.
Proof.
  intros Hv Hpos.
  destruct (removeMax_cells w (valid_wf w Hv) Hpos)
    as (a & a' & r & Ha & Hrun & Hr & Hlast & Hs & Hperm).
  destruct Hv as (a0 & Ha0 & Hlen & Hn & _ & Hnum & Hh).
  assert (a0 = a) as -> by congruence.
  eexists r, _. split; [exact Hrun|].
  unfold live_cells.
  rewrite storage_of_with_count, (storage_of_with_storage w a a') by done.
  rewrite (storage_of_lookup w a Ha). simpl.
  split; [done|]. split; [|by auto].
  intros k Hk. unfold prio. rewrite (storage_of_lookup w a Ha).
  assert (priority r = prio_at (records (fst w)) (array_get a 1)) as ->.
  { unfold prio_at. by rewrite Hr. }
  apply prio_ge_kz; [apply Hnum; lia|by apply Hnum|].
  by apply (heap_from_root _ (_count (snd w))).
Qed.

Lemma live_cell_index a (n : Z) v :
  v ∈ take (Z.to_nat n) (drop 1 a) ->
  exists k, 1 <= k <= n /\ k < Z.of_nat (length a) /\ array_get a k = v.
Proof.
  intros [i Hi]%list_elem_of_lookup_1.
  pose proof (lookup_lt_Some _ _ _ Hi) as Hlt. rewrite length_take in Hlt.
  rewrite lookup_take_lt, lookup_drop in Hi by lia.
  pose proof (lookup_lt_Some _ _ _ Hi) as Hlt'.
  exists (Z.of_nat (1 + i)). split; [lia|]. split; [lia|].
  unfold array_get. destruct (Z.ltb_spec (Z.of_nat (1 + i)) 0); [lia|].
  rewrite Nat2Z.id, Hi. done.
Qed.

(** What [insert] does to the records of a heap with room that holds no
    record twice. *)
Lemma insert_records w p e :
  valid_distinct w -> _count (snd w) < size (snd w) ->
  exists a a' l r,
    arrays (fst w) !! _storage (snd w) = Some a /\
    array_get a (_count (snd w) + 1) = VRef l /\
    records (fst w) !! l = Some r /\
    let rs' := <[l := {| priority := Some p; element := e |}]> (records (fst w)) in
    let w' := with_count (with_storage (with_records w rs') a') (_count (snd w) + 1) in
    insert p e w = Ok tt w' /\
    swapped 1 (_count (snd w) + 1) a a' /\
    valid_distinct w' /\
    (forall k, 1 <= k <= _count (snd w) ->
       record_at rs' (array_get a k) = record_at (records (fst w)) (array_get a k)) /\
    live_records w' ≡ₚ
      Some {| priority := Some p; element := e |} :: live_records w.
Proof.
  intros Hvd Hroom. pose proof (valid_wf w (proj1 Hvd)) as Hwf.
  destruct (insert_wf w p e Hwf Hroom)
    as (a & a' & l & r & Ha & Hl & Hr & Hrun & Hs & _ & _ & Hv').
  exists a, a', l, r. do 3 (split; [done|]). intros rs' w'.
  split; [done|]. split; [done|]. split; [by apply Hv'|].
  destruct Hwf as (a0 & Ha0 & Hlen & Hn & _).
  assert (a0 = a) as -> by congruence.
  destruct Hvd as [_ Hd]. rewrite (storage_of_lookup w a Ha) in Hd.
  assert (forall k, 1 <= k <= _count (snd w) ->
            record_at rs' (array_get a k) =
            record_at (records (fst w)) (array_get a k)) as Hsame.
  { intros k Hk. unfold rs'.
    apply (record_at_insert_other _ a (size (snd w)) (_count (snd w) + 1) k l);
      [done|lia|lia|lia|done]. }
  split; [done|].
  unfold live_records, live_cells, w'.
  rewrite storage_of_after by eauto. rewrite (storage_of_lookup w a Ha). simpl.
  rewrite (swapped_window 1 (_count (snd w) + 1) a a' 1
             (Z.to_nat (_count (snd w) + 1))) by (lia || done).
  rewrite (take_cells_snoc a (_count (snd w) + 1)) by lia.
  replace (_count (snd w) + 1 - 1) with (_count (snd w)) by lia.
  rewrite map_app, Hl. simpl. fold rs'.
  assert (rs' !! l = Some {| priority := Some p; element := e |}) as ->.
  { unfold rs'. apply list_lookup_insert_eq. by eapply lookup_lt_Some. }
  rewrite <- Permutation_cons_append. apply Permutation_cons; [done|].
  erewrite map_ext_in; [reflexivity|]. intros v Hin.
  apply list_elem_of_In in Hin.
  destruct (live_cell_index a _ v Hin) as (k & Hk & _ & <-).
  by apply Hsame.
Qed.

(** X2.  On a valid heap with room that holds no record twice, [insert]
    succeeds, raises the count by one, and the live records afterwards are
    the former live records, unchanged, and one record with the given
    priority and element. *)
Theorem insert_adds_record w p e :
  valid_distinct w -> _count (snd w) < size (snd w) ->
  exists w',
    insert p e w = Ok tt w' /\
    _count (snd w') = _count (snd w) + 1 /\
    valid_distinct w' /\
    live_records w' ≡ₚ
      Some {| priority := Some p; element := e |} :: live_records w.
Proof.
  intros Hvd Hroom.
  destruct (insert_records w p e Hvd Hroom)
    as (a & a' & l & r & _ & _ & _ & Hrun & _ & Hv' & _ & Hperm).
  eexists. split; [exact Hrun|]. split; [done|]. split; [exact Hv'|exact Hperm].
Qed.

(** X3.  Round trip: on a valid heap with room that holds no record twice,
    [insert] with a priority strictly greater than every live priority
    followed by [removeMax] returns the element just inserted; the count is
    back to what it was and the live records are those there were. *)
Theorem insert_then_removeMax w p e :
  valid_distinct w -> _count (snd w) < size (snd w) ->
  (forall k z, 1 <= k <= _count (snd w) -> prio w k = Some z -> z < p) ->
  exists w1 w2,
    insert p e w = Ok tt w1 /\
    removeMax w1 = Ok e w2 /\
    _count (snd w2) = _count (snd w) /\
    live_records w2 ≡ₚ live_records w.
Proof.
  intros Hvd Hroom Hmax.
  destruct (insert_records w p e Hvd Hroom)
    as (a & a' & l & r & Ha & Hl & Hr & Hrun & Hs & [Hv1 _] & Hsame & Hperm).
  set (n := _count (snd w)) in *. set (rs := records (fst w)) in *.
  set (rs' := <[l := {| priority := Some p; element := e |}]> rs) in *.
  set (w1 := with_count (with_storage (with_records w rs') a') (n + 1)) in *.
  assert (rs' !! l = Some {| priority := Some p; element := e |}) as Hnew.
  { unfold rs'. apply list_lookup_insert_eq. by eapply lookup_lt_Some. }
  destruct (proj1 Hvd) as (a0 & Ha0 & Hlen & Hn & _ & Hnum & _).
  assert (a0 = a) as -> by congruence. fold n rs in Hn, Hnum, Hlen.
  (* the new record is at the root *)
  assert (array_get a' 1 = VRef l) as Hroot.
  { destruct Hv1 as (a1 & Ha1 & _ & _ & _ & Hnum1 & Hh1).
    simpl in Ha1, Hnum1, Hh1. fold rs' in Hnum1, Hh1.
    rewrite list_lookup_insert_eq in Ha1 by (by eapply lookup_lt_Some).
    injection Ha1 as <-.
    destruct (swapped_inside_rev 1 (n + 1) a a' (n + 1) Hs) as (k2 & Hk2 & Hto); [lia|].
    destruct (swapped_inside 1 (n + 1) a a' 1 Hs) as (k1 & Hk1 & Hfrom); [lia|].
    destruct (decide (k1 = n + 1)) as [->|Hne]; [congruence|].
    exfalso.
    pose proof (heap_from_root _ _ Hh1 k2 Hk2) as Hle.
    assert (kz rs' a' k2 = p) as Hp.
    { unfold kz, prio_at. rewrite <- Hto, Hl. simpl. by rewrite Hnew. }
    assert (kz rs' a' 1 < p); [|lia].
    destruct (Hnum k1) as [z Hz]; [lia|].
    unfold kz, prio_at. rewrite Hfrom, Hsame by lia.
    unfold prio_at in Hz. rewrite Hz. simpl.
    apply (Hmax k1 z); [lia|].
    unfold prio, prio_at. by rewrite (storage_of_lookup w a Ha). }
  destruct (removeMax_cells w1 (valid_wf w1 Hv1))
    as (a1 & a2 & r1 & Ha1 & Hrun2 & Hr1 & _ & _ & Hperm2); [simpl; lia|].
  simpl in Ha1, Hrun2, Hr1, Hperm2. fold rs' in Hr1.
  rewrite list_lookup_insert_eq in Ha1 by (by eapply lookup_lt_Some).
  injection Ha1 as <-.
  rewrite Hroot in Hr1, Hperm2. simpl in Hr1. rewrite Hnew in Hr1.
  injection Hr1 as <-.
  eexists w1, _. split; [exact Hrun|]. split; [exact Hrun2|].
  split; [simpl; lia|].
  apply (Permutation_cons_inv (a := Some {| priority := Some p; element := e |})).
  rewrite <- Hperm.
  unfold live_records, live_cells.
  rewrite storage_of_with_count, (storage_of_with_storage w1 a' a2)
    by (simpl; apply list_lookup_insert_eq; by eapply lookup_lt_Some).
  assert (storage_of w1 = a') as -> by (unfold w1; apply storage_of_after; eauto).
  simpl. fold rs'.
  rewrite <- Hperm2. simpl. by rewrite Hnew.
Qed.

Lemma swap_cells_same a i :
  0 <= i < Z.of_nat (length a) -> swap_cells a i i = a.
Proof.
  intros Hi. unfold swap_cells.
  rewrite (array_set_inside a i) by done.
  rewrite array_set_inside by (rewrite length_insert; done).
  rewrite list_insert_insert_eq. apply list_insert_id. by apply array_get_lookup.
Qed.

Lemma swapped_single i a b : swapped i i a b -> b = a.
Proof.
  induction 1 as [|a j k b Hj Hk Hjl Hkl _ IH]; [done|].
  assert (j = i) as -> by lia. assert (k = i) as -> by lia.
  rewrite IH. by apply swap_cells_same.
Qed.

(** X4.  [sort] leaves a heap that still takes records: on a well-formed
    heap of capacity at least 1, [insert] right after [sort] succeeds with
    count 1.  It moves no cell and writes the given priority and element
    into the record that cell 1 of the sorted storage refers to, so the
    first entry of the sorted result is overwritten. *)
Theorem insert_after_sort w p e :
  wf w -> 1 <= size (snd w) ->
  exists w1 w2 l,
    sort w = Ok (_storage (snd w)) w1 /\
    _count (snd w1) = 0 /\
    array_get (storage_of w1) 1 = VRef l /\
    insert p e w1 = Ok tt w2 /\
    _count (snd w2) = 1 /\
    storage_of w2 = storage_of w1 /\
    records (fst w2) =
      <[l := {| priority := Some p; element := e |}]> (records (fst w1)) /\
    prio w2 1 = Some p.
Proof.
  intros Hwf Hsz.
  destruct (sort_wf w Hwf) as (a & a1 & Ha & Hrun & _ & Hwf1 & _).
  set (w1 := with_count (with_storage w a1) 0) in *.
  destruct (insert_wf w1 p e Hwf1) as (a1' & a2 & l & r & Ha1 & Hl & Hr & Hrun2 & Hs & _);
    [simpl; lia|].
  simpl in Hs. apply swapped_single in Hs. subst a2.
  change (array_get a1' 1 = VRef l) in Hl.
  assert (storage_of w1 = a1') as Hsto by (by apply storage_of_lookup).
  eexists w1, _, l. split; [exact Hrun|]. split; [done|].
  rewrite Hsto. split; [exact Hl|]. split; [exact Hrun2|]. split; [done|].
  split; [|split; [done|]].
  - rewrite storage_of_after by eauto. done.
  - unfold prio. rewrite storage_of_after by eauto. simpl.
    unfold prio_at. rewrite Hl. simpl.
    rewrite list_lookup_insert_eq by (by eapply lookup_lt_Some). done.
Qed.

(** X5.  On a well-formed heap the only exception is the one of [insert]
    on a full heap: [insert] throws exactly when [_isHeapFull] holds, and
    then leaves the world as it was; otherwise it returns.  [removeMax]
    and [sort] always return. *)
Theorem only_full_insert_throws w :
  wf w ->
  (forall p e,
     if _isHeapFull (snd w) then insert p e w = Throw HeapFull w
     else exists w', insert p e w = Ok tt w') /\
  (exists x w', removeMax w = Ok x w') /\
  (exists w', sort w = Ok (_storage (snd w)) w').
Proof.
  intros Hwf. split; [|split].
  - intros p e. unfold _isHeapFull.
    destruct (Z.eqb_spec (_count (snd w)) (size (snd w))) as [Hfull|Hroom].
    + apply insert_full. lia.
    + destruct (insert_wf w p e Hwf) as (a & a' & l & r & _ & _ & _ & Hrun & _).
      { destruct Hwf as (a & _ & _ & Hn & _). lia. }
      eexists. exact Hrun.
  - destruct (decide (_count (snd w) = 0)) as [Hz|Hnz].
    + rewrite removeMax_empty by done. eauto.
    + destruct (removeMax_wf w Hwf) as (a & a' & r & _ & Hrun & _).
      { destruct Hwf as (a & _ & _ & Hn & _). lia. }
      eauto.
  - destruct (sort_wf w Hwf) as (a & a' & _ & Hrun & _). eauto.
Qed.

(** X6.  The loops of [_sink] and [_float] end in every world and for
    every index, well-formed or not: [_sink(i)] takes at most
    [_count - i + 1] turns and [_float(i)] at most [i + 1]; whether they
    return or throw, the size and the count are as they were. *)
Theorem sink_float_terminate (i : Z) :
  keeps_heap (_sink (E := E) i) /\ keeps_heap (_float (E := E) i).
Proof. split; [apply keeps_heap_sink|apply keeps_heap_float]. Qed.

(** X7.  The constructor without [fromArray] always returns.  It appends
    one array to the memory and as many records as the size (none when the
    size is negative), and changes nothing that was there.  The new array
    is [null] followed by references to the new records, each in one cell;
    all their fields are [undefined]; the count is 0. *)
Theorem constructor_new_allocates sz m :
  let k := Z.to_nat (default DEFAULT_SIZE sz) in
  exists storage fresh,
    constructor sz None m =
      Ok tt ({| arrays := arrays m ++ [storage];
                records := records m ++ fresh |},
             {| _storage := length (arrays m);
                size := default DEFAULT_SIZE sz;
                _count := 0 |}) /\
    length storage = S k /\
    length fresh = k /\
    array_get storage 0 = VNull /\
    Forall (fun r => priority r = None /\ element r = None) fresh /\
    distinct_cells storage (Z.of_nat k) /\
    forall i, 1 <= i <= Z.of_nat k ->
      exists l, array_get storage i = VRef l /\
                (length (records m) <= l < length (records m) + k)%nat.
Proof.
  intros k. rewrite constructor_new_eq. fold k.
  eexists _, _. split; [reflexivity|].
  split; [simpl; by rewrite length_map, length_seq|].
  split; [by rewrite length_replicate|].
  split; [done|]. split; [|split].
  - apply Forall_forall. intros r Hr%elem_of_replicate. by destruct Hr as [-> _].
  - intros i j Hi Hj. rewrite !array_get_new_slot by lia. intros [= Heq]. lia.
  - intros i Hi. rewrite array_get_new_slot by lia. eexists. split; [done|]. lia.
Qed.

(** X8.  What the operations leave alone on a well-formed heap: no
    operation touches an array other than the storage, nor the sentinel
    cell; [removeMax] and [sort] write no record at all, and [insert]
    writes only the record that the cell just past the count refers to. *)
Theorem operations_frame w :
  wf w ->
  (forall x w', removeMax w = Ok x w' ->
     records (fst w') = records (fst w) /\
     array_get (storage_of w') 0 = array_get (storage_of w) 0 /\
     forall l, l <> _storage (snd w) -> arrays (fst w') !! l = arrays (fst w) !! l) /\
  (forall x w', sort w = Ok x w' ->
     records (fst w') = records (fst w) /\
     array_get (storage_of w') 0 = array_get (storage_of w) 0 /\
     forall l, l <> _storage (snd w) -> arrays (fst w') !! l = arrays (fst w) !! l) /\
  (forall p e w', insert p e w = Ok tt w' ->
     array_get (storage_of w') 0 = array_get (storage_of w) 0 /\
     (forall l, l <> _storage (snd w) -> arrays (fst w') !! l = arrays (fst w) !! l) /\
     forall l, array_get (storage_of w) (_count (snd w) + 1) <> VRef l ->
       records (fst w') !! l = records (fst w) !! l).
Proof.
  intros Hwf. split; [|split].
  - intros x w' Hrun.
    destruct (decide (_count (snd w) = 0)) as [Hz|Hnz].
    { rewrite removeMax_empty in Hrun by done. by injection Hrun as _ <-. }
    destruct (removeMax_wf w Hwf) as (a & a' & r & Ha & Hrun' & _ & _ & Hs & _).
    { destruct Hwf as (a & _ & _ & Hn & _). lia. }
    rewrite Hrun' in Hrun. injection Hrun as _ <-.
    rewrite storage_of_with_count, (storage_of_with_storage w a a') by done.
    rewrite (storage_of_lookup w a Ha). simpl.
    split; [done|]. split; [apply (swapped_outside _ _ _ _ _ Hs); lia|].
    intros l Hl. by apply list_lookup_insert_ne.
  - intros x w' Hrun.
    destruct (sort_wf w Hwf) as (a & a' & Ha & Hrun' & Hs & _).
    rewrite Hrun' in Hrun. injection Hrun as _ <-.
    rewrite storage_of_with_count, (storage_of_with_storage w a a') by done.
    rewrite (storage_of_lookup w a Ha). simpl.
    split; [done|]. split; [apply (swapped_outside _ _ _ _ _ Hs); lia|].
    intros l Hl. by apply list_lookup_insert_ne.
  - intros p e w' Hrun.
    destruct (decide (_count (snd w) < size (snd w))) as [Hroom|Hfull].
    + destruct (insert_wf w p e Hwf Hroom)
        as (a & a' & l0 & r & Ha & Hl0 & _ & Hrun' & Hs & _).
      rewrite Hrun' in Hrun. injection Hrun as <-.
      rewrite storage_of_after by eauto. rewrite (storage_of_lookup w a Ha). simpl.
      split; [apply (swapped_outside _ _ _ _ _ Hs); lia|].
      split; [intros l Hl; by apply list_lookup_insert_ne|].
      intros l Hl. apply list_lookup_insert_ne. congruence.
    + rewrite insert_full in Hrun; [done|].
      destruct Hwf as (a & _ & _ & Hn & _). lia.
Qed.

(** X9.  Without [insert] the heap order cannot break, shared records or
    not: [removeMax] and [sort] take a valid heap to a valid heap, and a
    valid heap has the max-heap invariant. *)
Theorem removal_keeps_valid w :
  valid w ->
  heap_property w /\
  (forall x w', removeMax w = Ok x w' -> valid w' /\ heap_property w') /\
  (forall x w', sort w = Ok x w' -> valid w' /\ heap_property w').
Proof.
  intros Hv. pose proof (valid_wf w Hv) as Hwf.
  split; [by apply valid_heap_property|]. split.
  - intros x w' Hrun.
    destruct (decide (_count (snd w) = 0)) as [Hz|Hnz].
    { rewrite removeMax_empty in Hrun by done. injection Hrun as _ <-.
      split; [done|by apply valid_heap_property]. }
    destruct (removeMax_wf w Hwf) as (a & a' & r & _ & Hrun' & _ & _ & _ & _ & _ & Hv' & _).
    { destruct Hwf as (a & _ & _ & Hn & _). lia. }
    rewrite Hrun' in Hrun. injection Hrun as _ <-.
    split; [by apply Hv'|by apply valid_heap_property, Hv'].
  - intros x w' Hrun.
    destruct (sort_wf w Hwf) as (a & a' & _ & Hrun' & _ & _ & _ & Hv' & _).
    rewrite Hrun' in Hrun. injection Hrun as _ <-.
    split; [done|by apply valid_heap_property].
Qed.

(** X10.  The constructor given any record array, shared records or not,
    returns a valid heap: the max-heap invariant holds at every index, the
    records are unchanged and the cells [1..n] are a permutation of the
    cells given. *)
Theorem fromArray_valid sz m arr cells :
  arrays m !! arr = Some cells ->
  record_array (records m) cells ->
  exists w,
    constructor sz (Some arr) m = Ok tt w /\
    valid w /\ heap_property w /\
    records (fst w) = records m /\
    live_cells w ≡ₚ drop 1 cells.
Proof.
  intros Ha Hra.
  destruct (constructor_fromArray_spec sz m arr cells Ha Hra)
    as (a' & Hrun & _ & Hs & Hv & _).
  eexists. split; [exact Hrun|]. split; [exact Hv|].
  split; [by apply valid_heap_property|]. split; [done|].
  unfold live_cells. rewrite (storage_of_with_storage _ cells a') by done. simpl.
  rewrite take_ge.
  - by apply (swapped_tail (Z.of_nat (length cells) - 1)).
  - rewrite length_drop, (swapped_length _ _ _ _ Hs). lia.
Qed.

(** X11.  A run of [insert] calls on a well-formed heap succeeds as a whole
    exactly when the records fit: with at most [size - count] of them every
    call returns and the count grows by their number; with more, the call
    that finds the heap full throws, and the count stays at the size. *)
Theorem insert_all_capacity ps : forall w,
  wf w ->
  if decide (Z.of_nat (length ps) <= size (snd w) - _count (snd w)) then
    exists w', insert_all ps w = Ok tt w' /\ wf w' /\
               size (snd w') = size (snd w) /\
               _count (snd w') = _count (snd w) + Z.of_nat (length ps)
  else
    exists w', insert_all ps w = Throw HeapFull w' /\ wf w' /\
               size (snd w') = size (snd w) /\
               _count (snd w') = size (snd w).
Proof.
  induction ps as [|[p e] ps IH]; intros w Hwf.
  - pose proof Hwf as (a & _ & _ & Hn & _).
    rewrite decide_True by (simpl; lia).
    exists w. simpl. split; [done|]. split; [done|]. lia.
  - pose proof Hwf as (a & _ & _ & Hn & _).
    cbn [insert_all fst snd]. unfold bind.
    destruct (decide (_count (snd w) < size (snd w))) as [Hroom|Hfull].
    + destruct (insert_wf w p e Hwf Hroom)
        as (a0 & a' & l & r & _ & _ & _ & Hrun & _ & Hwf' & _).
      rewrite Hrun. specialize (IH _ Hwf'). simpl in IH.
      cbn [length]. repeat case_decide; try lia.
      * destruct IH as (w' & Hrun' & Hwf2 & Hsz & Hc).
        exists w'. repeat split; try done. lia.
      * exact IH.
    + rewrite insert_full by lia.
      rewrite decide_False by (cbn [length]; lia).
      exists w. repeat split; try done. lia.
Qed.

(** X12.  Index arithmetic: the parent of either child of [i] is [i], every
    index is the left or the right child of its parent; for [i >= 1] the
    children lie above [i], the left one first, and for [i >= 2] the parent
    lies in [1..i-1].  The parent of the root is 0, which is in no bounds. *)
Theorem parent_child_indices (i : Z) :
  _parent (_left i) = i /\
  _parent (_right i) = i /\
  (i = _left (_parent i) \/ i = _right (_parent i)) /\
  (1 <= i -> i < _left i /\ _left i < _right i) /\
  (2 <= i -> 1 <= _parent i < i) /\
  (forall h, _inSizeBounds h (_parent 1) = false /\
             _inCountBounds h (_parent 1) = false).
Proof.
  pose proof (parent_bounds i) as Hp.
  pose proof (parent_bounds (_left i)) as Hl.
  pose proof (parent_bounds (_right i)) as Hr.
  unfold _left, _right in *.
  repeat split; try lia.
Qed.

Lemma max_of_in_order n (f : Z -> option Z) (g : Z -> Z) i :
  (forall k, 1 <= k <= n -> f k = Some (g k)) ->
  heap_from g n 1 -> 1 <= i ->
  max_of n f i = i.
Proof.
  intros Hf Hh Hi.
  destruct (max_of_shape n f i Hi) as [Heq|[Hch Hmx]]; [done|].
  destruct (max_of_order n f g i Hf) as (_ & Hlt & _); [lia|].
  pose proof (Hh i (max_of n f i)). lia.
Qed.

Lemma sink_in_order w i :
  valid w -> 1 <= i -> _sink i w = Ok tt w.
Proof.
  intros (a & Ha & Hlen & Hn & Hv & Hnum & Hh) Hi.
  unfold _sink, bind, this. cbn [sink_loop]. unfold bind.
  rewrite (sink_max_ok w a) by (done || by apply numeric_valid).
  rewrite (max_of_in_order _ _ (kz (records (fst w)) a)); auto.
  - by rewrite Z.eqb_refl.
  - intros k Hk. by apply prio_at_kz, Hnum.
Qed.

(** X13.  On a valid heap [_sink] at any index from 1 on and [_buildheap]
    change nothing: heapifying what is a heap already is the identity.  So
    the constructor given an array whose cells are in heap order leaves
    the array as it is. *)
Theorem heapify_of_heap_is_identity w :
  valid w ->
  (forall i, 1 <= i -> _sink i w = Ok tt w) /\
  _buildheap w = Ok tt w.
Proof.
  intros Hv. split; [intros i Hi; by apply sink_in_order|].
  unfold _buildheap, bind, this.
  induction (Z.to_nat (_count (snd w) / 2)) as [|k IH]; [done|].
  cbn [buildheap_loop]. unfold bind. rewrite sink_in_order by (done || lia).
  exact IH.
Qed.

(** X14.  A heap built with a capacity of 0 or less holds nothing: its
    storage is the sentinel alone, every [insert] throws the capacity
    error, and [removeMax] returns [undefined]; the world stays as the
    constructor left it. *)
Theorem no_capacity_heap size0 m :
  size0 <= 0 ->
  exists w,
    constructor (Some size0) None m = Ok tt w /\
    storage_of w = [VNull] /\
    records (fst w) = records m /\
    (forall p e, insert p e w = Throw HeapFull w) /\
    removeMax w = Ok None w.
Proof.
  intros Hsz. rewrite constructor_new_eq. simpl default.
  replace (Z.to_nat size0) with 0%nat by lia. simpl.
  eexists. split; [reflexivity|]. split; [|split; [|split]].
  - unfold storage_of. simpl. rewrite lookup_app_r, Nat.sub_diag by lia. done.
  - simpl. by rewrite app_nil_r.
  - intros p e. apply insert_full. simpl. lia.
  - by apply removeMax_empty.
Qed.

(** X15.  What happens when [fromArray] is an empty array, with no
    sentinel: the constructor returns a heap whose size and count are -1,
    and [heapsort] returns with nothing changed.  On that heap [count()]
    is -1, every [insert] throws the capacity error, and [removeMax] does
    not see the heap as empty: it extends the array to two cells reading
    [undefined], lowers the count to -2 and then throws [TypeError]. *)
Theorem fromArray_without_sentinel sz m arr :
  arrays m !! arr = Some [] ->
  let w := (m, {| _storage := arr; size := -1; _count := -1 |}) in
  constructor sz (Some arr) m = Ok tt w /\
  heapsort arr m = Ok tt w /\
  count w = Ok (-1) w /\
  (forall p e, insert p e w = Throw HeapFull w) /\
  removeMax w =
    Throw TypeError
      ({| arrays := <[arr := [VUndefined; VUndefined]]> (arrays m);
          records := records m |},
       {| _storage := arr; size := -1; _count := -2 |}).
Proof.
  intros Ha w.
  assert (constructor sz (Some arr) m = Ok tt w) as Hctor.
  { unfold constructor. rewrite Ha. reflexivity. }
  split; [exact Hctor|]. split; [|split; [done|split]].
  - unfold heapsort.
    assert (constructor None (Some arr) m = Ok tt w) as ->.
    { unfold constructor. rewrite Ha. reflexivity. }
    reflexivity.
  - intros p e. apply insert_full. simpl. lia.
  - unfold removeMax. unfold bind at 1. unfold this.
    change (_count (snd w) =? 0) with false. cbv iota.
    unfold bind at 1. rewrite (_swap_ok w []) by done.
    change (swap_cells [] 1 (_count (snd w))) with [VUndefined; VUndefined].
    unfold bind at 1. unfold set_count.
    unfold bind at 1.
    set (w1 := (fst (with_storage w [VUndefined; VUndefined]), _)).
    change (_sink 1 w1) with (Ok (E := E) tt w1).
    unfold storage_element, bind.
    rewrite (storage_get_ok w1 [VUndefined; VUndefined])
      by (simpl; apply list_lookup_insert_eq; by eapply lookup_lt_Some).
    reflexivity.
Qed.

Lemma entry_at_record rs v r :
  record_at rs v = Some r -> entry_at rs v = (element r, priority r).
Proof. intros Hr. unfold entry_at. by rewrite Hr. Qed.

Lemma drain_entries k : forall w,
  wf w ->
  exists out w',
    drain k w = Ok out w' /\
    wf w' /\
    records (fst w') = records (fst w) /\
    length out = Nat.min k (Z.to_nat (_count (snd w))) /\
    _count (snd w') = _count (snd w) - Z.of_nat (length out) /\
    out ++ map (entry_at (records (fst w))) (live_cells w') ≡ₚ
      map (entry_at (records (fst w))) (live_cells w).
Proof.
  induction k as [|k IH]; intros w Hwf.
  - exists [], w. simpl. repeat split; try done; lia.
  - cbn [drain]. unfold bind at 1. unfold this.
    destruct (Z.eqb_spec (_count (snd w)) 0) as [Hz|Hnz].
    + exists [], w. simpl. rewrite Hz. repeat split; try done; lia.
    + assert (1 <= _count (snd w)) as Hpos.
      { destruct Hwf as (a & _ & _ & Hn & _). lia. }
      destruct (removeMax_wf w Hwf Hpos)
        as (a & a' & r & Ha & Hrun & Hr & Hlast & Hs & Hwf1 & _).
      assert (array_get a 1 :: take (Z.to_nat (_count (snd w) - 1)) (drop 1 a') ≡ₚ
                take (Z.to_nat (_count (snd w))) (drop 1 a)) as Hperm.
      { apply removed_cells_Permutation; [|done|done].
        destruct Hwf as (a0 & Ha0 & Hlen & Hn & _).
        assert (a0 = a) as -> by congruence. lia. }
      set (n := _count (snd w)) in *. set (rs := records (fst w)) in *.
      set (w1 := with_count (with_storage w a') (n - 1)) in *.
      assert (storage_of w1 = a') as Hsto.
      { unfold w1. by rewrite storage_of_with_count, (storage_of_with_storage w a a'). }
      destruct (IH w1 Hwf1) as (out & w2 & Hdrain & Hwf2 & Hrs2 & Hlen2 & Hc2 & Hp2).
      simpl in Hrs2, Hlen2, Hc2, Hp2. fold rs in Hrs2, Hp2.
      exists ((element r, priority r) :: out), w2.
      split; [|split; [done|]; split; [done|]; split; [|split]].
      * unfold bind. rewrite Hrun. fold w1.
        rewrite (storage_priority_ok w1 a' n).
        -- simpl records. fold rs. rewrite Hdrain. unfold ret.
           unfold prio_at. by rewrite Hlast, Hr.
        -- unfold w1. simpl. apply list_lookup_insert_eq. by eapply lookup_lt_Some.
        -- simpl. fold rs. rewrite Hlast, Hr. eauto.
      * cbn [length]. lia.
      * cbn [length]. lia.
      * cbn [app]. rewrite Hp2.
        rewrite <- (entry_at_record rs (array_get a 1) r Hr).
        unfold live_cells. rewrite Hsto, (storage_of_lookup w a Ha). simpl.
        fold n. rewrite <- Hperm. done.
Qed.

(** X16.  Draining loses nothing and invents nothing: on a well-formed heap
    with [n] records, [n] calls of [removeMax] all return, leave the count
    at 0 and no record changed, and the elements returned, each with the
    priority of its record, are those of the [n] live records, each once. *)
Theorem drain_returns_every_record w :
  wf w ->
  exists out w',
    drain (Z.to_nat (_count (snd w))) w = Ok out w' /\
    length out = Z.to_nat (_count (snd w)) /\
    _count (snd w') = 0 /\
    records (fst w') = records (fst w) /\
    out ≡ₚ map (entry_at (records (fst w))) (live_cells w).
Proof.
  intros Hwf.
  destruct (drain_entries (Z.to_nat (_count (snd w))) w Hwf)
    as (out & w' & Hdrain & _ & Hrs & Hlen & Hc & Hperm).
  pose proof Hwf as (a & _ & _ & Hn & _).
  exists out, w'. split; [done|]. split; [lia|]. split; [lia|]. split; [done|].
  rewrite <- Hperm. unfold live_cells at 1.
  replace (Z.to_nat (_count (snd w'))) with 0%nat by lia.
  by rewrite take_0, app_nil_r.
Qed.

(** X17.  Whatever the public operations do, from a constructor call with
    a capacity of at least 0 or with any record array, the heap stays
    well-formed: the count is between 0 and the size, the storage has
    [size + 1] cells, and each of the cells [1..size] refers to a record. *)
Theorem reachable_well_formed w :
  reachable record_array w ->
  0 <= _count (snd w) <= size (snd w) /\
  Z.of_nat (length (storage_of w)) = size (snd w) + 1 /\
  forall i, 1 <= i <= size (snd w) ->
    is_Some (record_at (records (fst w)) (array_get (storage_of w) i)).
Proof.
  intros Hr. destruct (reachable_wf w Hr) as (a & Ha & Hlen & Hn & Hv).
  rewrite (storage_of_lookup w a Ha). auto.
Qed.

(** X18.  [insert] allocates nothing: on a well-formed heap with room it
    takes the record that the cell just past the count refers to and
    overwrites its two fields.  The memory afterwards has the same arrays
    and records but for that one record, the storage holds the same cells
    up to order, and every cell that refers to that record, were there
    several, reads the new priority and element. *)
Theorem insert_reuses_record w p e :
  wf w -> _count (snd w) < size (snd w) ->
  exists l w',
    array_get (storage_of w) (_count (snd w) + 1) = VRef l /\
    insert p e w = Ok tt w' /\
    records (fst w') =
      <[l := {| priority := Some p; element := e |}]> (records (fst w)) /\
    length (arrays (fst w')) = length (arrays (fst w)) /\
    storage_of w' ≡ₚ storage_of w /\
    forall i, array_get (storage_of w') i = VRef l ->
      record_at (records (fst w')) (array_get (storage_of w') i) =
        Some {| priority := Some p; element := e |}.
Proof.
  intros Hwf Hroom.
  destruct (insert_wf w p e Hwf Hroom)
    as (a & a' & l & r & Ha & Hl & Hr & Hrun & Hs & _ & Hsame & _).
  eexists l, _. rewrite (storage_of_lookup w a Ha).
  split; [exact Hl|]. split; [exact Hrun|].
  destruct Hsame as (_ & _ & Harr & _ & _ & Hperm).
  rewrite (storage_of_lookup w a Ha) in Hperm.
  split; [done|]. split; [exact Harr|]. split; [exact Hperm|].
  intros i Hi. rewrite Hi. simpl.
  apply list_lookup_insert_eq. by eapply lookup_lt_Some.
Qed.

End Further.

(** ** The claims at concrete heaps *)

Section Concrete.

(** The examples carry no element: the element type is [unit]. *)
Local Abbreviation mem_312 := (mem_312 (E := unit)).
Local Abbreviation mem_5193 := (mem_5193 (E := unit)).
Local Abbreviation mem_aliased := (mem_aliased (E := unit)).
Local Abbreviation world_full := (world_full (E := unit)).
Local Abbreviation world_tie := (world_tie (E := unit)).
Local Abbreviation world_empty := (world_empty (E := unit)).
Local Abbreviation world_5381 := (world_5381 (E := unit)).
Local Abbreviation empty_mem := (empty_mem (E := unit)).
Local Abbreviation world_room := (world_room (E := unit)).
Local Abbreviation mem_no_sentinel := (mem_no_sentinel (E := unit)).
Local Abbreviation rec_of := (rec_of (E := unit)).

(** Cells [1..n] of a concrete array, one index at a time. *)
Local Ltac each_cell :=
  let k := fresh "k" in
  let Hk := fresh "Hk" in
  intros k Hk; simpl in Hk;
  assert (k = 1 \/ k = 2 \/ k = 3 \/ k = 4) as [->|[->|[->| ->]]] by lia;
  solve [vm_compute; eauto | exfalso; lia].

Lemma wf_world_full : wf world_full.
Proof.
  eexists. split; [reflexivity|]. split; [reflexivity|]. split; [simpl; lia|].
  each_cell.
Defined.

Lemma valid_world_full : valid world_full.
Proof.
  eexists. split; [reflexivity|]. split; [reflexivity|]. split; [simpl; lia|].
  split; [|split].
  - each_cell.
  - each_cell.
  - simpl. intros p c Hp Hc Hcn.
    assert (p = 1 /\ c = 2) as [-> ->] by lia. vm_compute. discriminate.
Defined.

Lemma record_array_312 :
  record_array (records mem_312)
    [VNull; VRef 0%nat; VRef 1%nat; VRef 2%nat].
Proof. split; [simpl; lia|]. each_cell. Defined.

Lemma record_array_5193 :
  record_array (records mem_5193)
    [VNull; VRef 0%nat; VRef 1%nat; VRef 2%nat; VRef 3%nat].
Proof. split; [simpl; lia|]. each_cell. Defined.

Lemma record_array_aliased :
  record_array (records mem_aliased)
    [VNull; VRef 0%nat; VRef 1%nat; VRef 0%nat].
Proof. split; [simpl; lia|]. each_cell. Defined.

(** C1 at the array [[_, 3, 1, 2]]: the cells end as the records with
    priorities 1, 2, 3. *)
Lemma heapsort_sorts_in_place_witness :
  heapsort 0%nat mem_312 =
    Ok tt ({| arrays := [[VNull; VRef 1%nat; VRef 2%nat; VRef 0%nat]];
              records := records mem_312 |},
           {| _storage := 0%nat; size := 3; _count := 0 |}) /\
  exists cells' h,
    heapsort 0%nat mem_312 =
      Ok tt ({| arrays := <[0%nat := cells']> (arrays mem_312);
                records := records mem_312 |}, h) /\
    length cells' = 4%nat /\
    array_get cells' 0 = VNull /\
    drop 1 cells' ≡ₚ [VRef 0%nat; VRef 1%nat; VRef 2%nat] /\
    forall i j, 1 <= i -> i <= j -> j < 4 ->
      prio_ge (prio_at (records mem_312) (array_get cells' j))
              (prio_at (records mem_312) (array_get cells' i)).
Proof.
  split; [vm_compute; reflexivity|].
  apply (heapsort_sorts_in_place mem_312 0%nat
           [VNull; VRef 0%nat; VRef 1%nat; VRef 2%nat]).
  - reflexivity.
  - exact record_array_312.
Defined.

(** C2 (as amended) at the heap built from [[_, 7, 4]]. *)
Lemma heap_property_reachable_witness :
  reachable distinct_record_array world_full /\
  heap_property world_full.
Proof.
  assert (reachable distinct_record_array world_full) as Hr.
  { apply (reach_fromArray _ None (fst world_full) 0%nat
             [VNull; VRef 0%nat; VRef 1%nat]).
    - reflexivity.
    - split.
      + split; [simpl; lia|]. each_cell.
      + intros i j Hi Hj. simpl in Hi, Hj.
        assert (i = 1 \/ i = 2) as [->| ->] by lia;
        assert (j = 1 \/ j = 2) as [->| ->] by lia;
        vm_compute; congruence.
    - vm_compute. reflexivity. }
  split; [exact Hr|]. exact (heap_property_reachable world_full Hr).
Defined.

(** C2 as stated fails: built from the array [[_, c, d, c]], in which the
    record [c] (priority 10) sits in two cells ([d] has priority 8),
    [removeMax()] and then [insert(3, ...)] write priority 3 into [c], which
    is the root as well; the root then has priority 3 and its left child
    priority 8. *)
Lemma heap_property_fails_on_shared_record :
  ~ (forall w : world unit, reachable record_array w -> heap_property w).
Proof.
  intros Hclaim.
  set (w3 := ({| arrays := [[VNull; VRef 0%nat; VRef 1%nat; VRef 0%nat]];
                 records := [rec_of 3; rec_of 8] |},
              {| _storage := 0%nat; size := 3; _count := 3 |}) : world unit).
  assert (reachable record_array w3) as Hr.
  { eapply (reach_insert _ _ 3 None).
    - eapply reach_removeMax.
      + apply (reach_fromArray _ None mem_aliased 0%nat
                 [VNull; VRef 0%nat; VRef 1%nat; VRef 0%nat]).
        * reflexivity.
        * exact record_array_aliased.
        * vm_compute. reflexivity.
      + vm_compute. reflexivity.
    - vm_compute. reflexivity. }
  destruct (Hclaim w3 Hr 1) as [Hleft _]; [simpl; lia|].
  assert (_left 1 <= _count (snd w3)) as Hle by (unfold _left, w3; simpl; lia).
  specialize (Hleft Hle).
  vm_compute in Hleft. apply Hleft. reflexivity.
Qed.

Lemma valid_distinct_world_empty : valid_distinct world_empty.
Proof.
  apply (constructor_new_valid (Some 4) empty_mem world_empty);
    [simpl; lia|reflexivity].
Defined.

(** C3 at the empty heap of capacity 4 and the priorities 5, 3, 8, 1. *)
Lemma removeMax_order_witness :
  valid_distinct world_empty /\
  insert_all [(5, None); (3, None); (8, None); (1, None)] world_empty =
    Ok tt world_5381 /\
  (exists out w2,
     drain 4 world_5381 = Ok out w2 /\
     length out = Nat.min 4 (Z.to_nat (_count (snd world_5381))) /\
     StronglySorted prio_ge (map snd out)) /\
  (forall e5 e3 e8 e1 : option unit,
     exists w2,
       and_then
         (and_then (constructor (Some 4) None empty_mem)
            (insert_all [(5, e5); (3, e3); (8, e8); (1, e1)]))
         (drain 4) =
       Ok [(e8, Some 8); (e5, Some 5); (e3, Some 3); (e1, Some 1)] w2).
Proof.
  split; [exact valid_distinct_world_empty|].
  split; [vm_compute; reflexivity|].
  apply (removeMax_order world_empty
           [(5, None); (3, None); (8, None); (1, None)] world_5381 4).
  - exact valid_distinct_world_empty.
  - vm_compute. reflexivity.
Defined.

(** C4 at a full heap of capacity 2. *)
Lemma insert_full_heap_throws_witness :
  _count (snd world_full) = size (snd world_full) /\
  insert 9 None world_full = Throw HeapFull world_full.
Proof.
  split; [reflexivity|].
  apply (insert_full_heap_throws world_full 9 None). reflexivity.
Defined.

(** C5 at a new heap. *)
Lemma removeMax_empty_heap_witness :
  _count (snd world_empty) = 0 /\
  exists w', removeMax world_empty = Ok None w' /\
             w' = world_empty /\ _count (snd w') = 0.
Proof.
  split; [reflexivity|].
  apply (removeMax_empty_heap world_empty). reflexivity.
Defined.

(** C6 at a heap that holds two records. *)
Lemma count_consistent_witness :
  wf world_full /\
  count world_full = Ok 2 world_full /\
  (exists x w', removeMax world_full = Ok x w' /\ count w' = Ok 1 w').
Proof.
  split; [exact wf_world_full|].
  destruct (count_consistent world_full wf_world_full)
    as (Hcount & _ & _ & _ & _ & Hremove).
  split; [exact Hcount|]. apply Hremove. simpl. lia.
Defined.

(** C7 at a heap that holds two records. *)
Lemma sort_ascending_witness :
  valid world_full /\
  exists w',
    sort world_full = Ok 0%nat w' /\
    removeMax_times 2 world_full = Ok tt w' /\
    _storage (snd w') = 0%nat /\
    _count (snd w') = 0 /\
    records (fst w') = records (fst world_full) /\
    take 2 (drop 1 (storage_of w')) ≡ₚ take 2 (drop 1 (storage_of world_full)) /\
    forall i j, 1 <= i -> i <= j -> j <= 2 -> prio_ge (prio w' j) (prio w' i).
Proof.
  split; [exact valid_world_full|].
  exact (sort_ascending world_full valid_world_full).
Defined.

(** C8 at the array [[_, 5, 1, 9, 3]]. *)
Lemma constructor_fromArray_heapifies_witness :
  arrays mem_5193 !! 0%nat =
    Some [VNull; VRef 0%nat; VRef 1%nat; VRef 2%nat; VRef 3%nat] /\
  record_array (records mem_5193)
    [VNull; VRef 0%nat; VRef 1%nat; VRef 2%nat; VRef 3%nat] /\
  constructor None (Some 0%nat) mem_5193 =
    sink_all [2; 1] (mem_5193, {| _storage := 0%nat; size := 4; _count := 4 |}) /\
  exists w, constructor None (Some 0%nat) mem_5193 = Ok tt w /\ prio w 1 = Some 9.
Proof.
  split; [reflexivity|]. split; [exact record_array_5193|].
  destruct (constructor_fromArray_heapifies None mem_5193 0%nat
              [VNull; VRef 0%nat; VRef 1%nat; VRef 2%nat; VRef 3%nat]
              eq_refl record_array_5193) as (_ & Hsinks & Hroot).
  split; [exact Hsinks|exact Hroot].
Defined.

(** C9 (as amended) at a root of priority 1 above two children of
    priority 5: the left child is the swap target. *)
Lemma sink_tie_break_witness :
  numeric_cells (records (fst world_tie)) [VNull; VRef 0%nat; VRef 1%nat; VRef 2%nat] 3 /\
  exists mx, sink_max 1 world_tie = Ok mx world_tie /\ mx = 2.
Proof.
  assert (numeric_cells (records (fst world_tie))
            [VNull; VRef 0%nat; VRef 1%nat; VRef 2%nat]
            (_count (snd world_tie))) as Hnum by each_cell.
  split; [exact Hnum|].
  destruct (sink_tie_break world_tie [VNull; VRef 0%nat; VRef 1%nat; VRef 2%nat] 1
              eq_refl Hnum) as (mx & Hrun & Hmx & _).
  - lia.
  - vm_compute. discriminate.
  - exists mx. split; [exact Hrun|]. rewrite Hmx. vm_compute. reflexivity.
Defined.

(** C9 as stated fails: with a root of priority 1 above two children of
    priority 5, both inside the count, the tracked maximum after the test
    of the left child is the left child; the priority of the right child
    is not less, and yet the swap target is the left child. *)
Lemma sink_tie_keeps_left_child :
  ~ (forall (w : world unit) a i,
       arrays (fst w) !! _storage (snd w) = Some a ->
       numeric_cells (records (fst w)) a (_count (snd w)) ->
       1 <= i -> _right i <= _count (snd w) ->
       let f := kz (records (fst w)) a in
       let tracked := if f i <? f (_left i) then _left i else i in
       f (_left i) = f (_right i) ->
       f tracked <= f (_right i) ->
       sink_max i w = Ok (_right i) w).
Proof.
  intros Hclaim.
  assert (numeric_cells (records (fst world_tie))
            [VNull; VRef 0%nat; VRef 1%nat; VRef 2%nat]
            (_count (snd world_tie))) as Hnum by each_cell.
  specialize (Hclaim world_tie [VNull; VRef 0%nat; VRef 1%nat; VRef 2%nat] 1
                eq_refl Hnum).
  assert (sink_max 1 world_tie = Ok (_right 1) world_tie) as Hbad.
  { apply Hclaim.
    - lia.
    - vm_compute. discriminate.
    - vm_compute. reflexivity.
    - vm_compute. discriminate. }
  vm_compute in Hbad. discriminate Hbad.
Qed.

(** C10 at a heap that holds two records. *)
Lemma storage_length_fixed_witness :
  wf world_full /\
  (exists w', after (removeMax world_full) = Some w' /\ same_slots world_full w') /\
  (exists w', after (sort world_full) = Some w' /\ same_slots world_full w').
Proof.
  split; [exact wf_world_full|].
  destruct (storage_length_fixed world_full wf_world_full)
    as (_ & Hremove & _ & Hsort).
  split; [exact Hremove|exact Hsort].
Defined.

(** *** The further properties at concrete heaps *)

Lemma valid_distinct_world_room : valid_distinct world_room.
Proof.
  split.
  - eexists. split; [reflexivity|]. split; [reflexivity|]. split; [simpl; lia|].
    split; [|split].
    + each_cell.
    + each_cell.
    + simpl. intros p c Hp Hc Hcn.
      assert (p = 1 /\ c = 2) as [-> ->] by lia. vm_compute. discriminate.
  - intros i j Hi Hj. simpl in Hi, Hj.
    assert (i = 1 \/ i = 2 \/ i = 3) as [->|[->| ->]] by lia;
    assert (j = 1 \/ j = 2 \/ j = 3) as [->|[->| ->]] by lia;
    vm_compute; congruence.
Defined.

Lemma wf_world_room : wf world_room.
Proof. exact (valid_wf world_room (proj1 valid_distinct_world_room)). Defined.

Lemma reachable_world_full : reachable record_array world_full.
Proof.
  apply (reach_fromArray _ None (fst world_full) 0%nat
           [VNull; VRef 0%nat; VRef 1%nat]).
  - reflexivity.
  - split; [simpl; lia|]. each_cell.
  - vm_compute. reflexivity.
Defined.

(** X1 at a heap that holds two records. *)
Lemma removeMax_returns_max_witness :
  valid world_full /\ 1 <= _count (snd world_full) /\
  exists r w',
    removeMax world_full = Ok (element r) w' /\
    priority r = Some 7 /\ _count (snd w') = 1.
Proof.
  split; [exact valid_world_full|]. split; [simpl; lia|].
  destruct (removeMax_returns_max world_full valid_world_full)
    as (r & w' & Hrun & Hr & _ & Hc & _); [simpl; lia|].
  exists r, w'. split; [exact Hrun|]. split; [|exact Hc].
  vm_compute in Hr. injection Hr as <-. reflexivity.
Defined.

(** X2 at a heap of capacity 3 that holds two records. *)
Lemma insert_adds_record_witness :
  valid_distinct world_room /\ _count (snd world_room) < size (snd world_room) /\
  exists w',
    insert 9 None world_room = Ok tt w' /\
    _count (snd w') = 3 /\
    live_records w' ≡ₚ Some (rec_of 9) :: live_records world_room.
Proof.
  split; [exact valid_distinct_world_room|]. split; [simpl; lia|].
  destruct (insert_adds_record world_room 9 None valid_distinct_world_room)
    as (w' & Hrun & Hc & _ & Hperm); [simpl; lia|].
  exists w'. split; [exact Hrun|]. split; [exact Hc|exact Hperm].
Defined.

Lemma world_room_below_9 :
  forall k z, 1 <= k <= _count (snd world_room) -> prio world_room k = Some z -> z < 9.
Proof.
  intros k z Hk. simpl in Hk.
  assert (k = 1 \/ k = 2) as [->| ->] by lia; vm_compute; intros [= <-]; reflexivity.
Defined.

(** X3 at a heap of capacity 3 that holds the priorities 7, 4, and the
    priority 9. *)
Lemma insert_then_removeMax_witness :
  valid_distinct world_room /\ _count (snd world_room) < size (snd world_room) /\
  exists w1 w2,
    insert 9 (Some tt) world_room = Ok tt w1 /\
    removeMax w1 = Ok (Some tt) w2 /\
    _count (snd w2) = 2.
Proof.
  split; [exact valid_distinct_world_room|]. split; [simpl; lia|].
  destruct (insert_then_removeMax world_room 9 (Some tt) valid_distinct_world_room)
    as (w1 & w2 & Hrun1 & Hrun2 & Hc & _); [simpl; lia|exact world_room_below_9|].
  exists w1, w2. split; [exact Hrun1|]. split; [exact Hrun2|exact Hc].
Defined.

(** X4 at a heap that holds two records. *)
Lemma insert_after_sort_witness :
  wf world_full /\ 1 <= size (snd world_full) /\
  exists w1 w2,
    sort world_full = Ok 0%nat w1 /\
    insert 5 None w1 = Ok tt w2 /\
    _count (snd w2) = 1 /\ prio w2 1 = Some 5.
Proof.
  split; [exact wf_world_full|]. split; [simpl; lia|].
  destruct (insert_after_sort world_full 5 None wf_world_full)
    as (w1 & w2 & l & Hsort & _ & _ & Hins & Hc & _ & _ & Hp); [simpl; lia|].
  exists w1, w2. split; [exact Hsort|]. split; [exact Hins|]. split; [exact Hc|exact Hp].
Defined.

(** X5 at a full heap. *)
Lemma only_full_insert_throws_witness :
  wf world_full /\
  insert 5 None world_full = Throw HeapFull world_full /\
  exists x w', removeMax world_full = Ok x w'.
Proof.
  split; [exact wf_world_full|].
  destruct (only_full_insert_throws world_full wf_world_full) as (Hins & Hrem & _).
  split; [exact (Hins 5 None)|exact Hrem].
Defined.

(** X8 at a heap that holds two records. *)
Lemma operations_frame_witness :
  wf world_full /\
  forall x w', removeMax world_full = Ok x w' ->
    records (fst w') = records (fst world_full).
Proof.
  split; [exact wf_world_full|].
  destruct (operations_frame world_full wf_world_full) as (Hrem & _).
  intros x w' Hrun. exact (proj1 (Hrem x w' Hrun)).
Defined.

(** X9 at a heap that holds two records. *)
Lemma removal_keeps_valid_witness :
  valid world_full /\
  forall x w', removeMax world_full = Ok x w' -> heap_property w'.
Proof.
  split; [exact valid_world_full|].
  destruct (removal_keeps_valid world_full valid_world_full) as (_ & Hrem & _).
  intros x w' Hrun. exact (proj2 (Hrem x w' Hrun)).
Defined.

(** X10 at the array [[_, c, d, c]], in which the record [c] sits twice. *)
Lemma fromArray_valid_witness :
  arrays mem_aliased !! 0%nat = Some [VNull; VRef 0%nat; VRef 1%nat; VRef 0%nat] /\
  record_array (records mem_aliased) [VNull; VRef 0%nat; VRef 1%nat; VRef 0%nat] /\
  exists w, constructor None (Some 0%nat) mem_aliased = Ok tt w /\ heap_property w.
Proof.
  split; [reflexivity|]. split; [exact record_array_aliased|].
  destruct (fromArray_valid None mem_aliased 0%nat
              [VNull; VRef 0%nat; VRef 1%nat; VRef 0%nat]
              eq_refl record_array_aliased) as (w & Hrun & _ & Hh & _).
  exists w. split; [exact Hrun|exact Hh].
Defined.

(** X11 at a heap of capacity 3 that holds two records: one more fits, two
    more do not. *)
Lemma insert_all_capacity_witness :
  wf world_room /\
  (exists w', insert_all [(1, None)] world_room = Ok tt w' /\ _count (snd w') = 3) /\
  (exists w', insert_all [(1, None); (2, None)] world_room = Throw HeapFull w' /\
              _count (snd w') = 3).
Proof.
  split; [exact wf_world_room|]. split.
  - pose proof (insert_all_capacity [(1, None)] world_room wf_world_room) as H.
    rewrite decide_True in H by (simpl; lia).
    destruct H as (w' & Hrun & _ & _ & Hc). exists w'. split; [exact Hrun|exact Hc].
  - pose proof (insert_all_capacity [(1, None); (2, None)] world_room wf_world_room) as H.
    rewrite decide_False in H by (simpl; lia).
    destruct H as (w' & Hrun & _ & _ & Hc). exists w'. split; [exact Hrun|exact Hc].
Defined.

(** X13 at a heap that holds two records. *)
Lemma heapify_of_heap_is_identity_witness :
  valid world_full /\ _buildheap world_full = Ok tt world_full.
Proof.
  split; [exact valid_world_full|].
  exact (proj2 (heapify_of_heap_is_identity world_full valid_world_full)).
Defined.

(** X14 at the capacity -3. *)
Lemma no_capacity_heap_witness :
  -3 <= 0 /\
  exists w,
    constructor (Some (-3)) None empty_mem = Ok tt w /\
    storage_of w = [VNull] /\
    insert 5 None w = Throw HeapFull w /\
    removeMax w = Ok None w.
Proof.
  assert (-3 <= 0) as Hle by lia.
  split; [exact Hle|].
  destruct (no_capacity_heap (-3) empty_mem Hle) as (w & Hrun & Hsto & _ & Hins & Hrem).
  exists w. split; [exact Hrun|]. split; [exact Hsto|].
  split; [exact (Hins 5 None)|exact Hrem].
Defined.

(** X15 at a memory whose only array is empty. *)
Lemma fromArray_without_sentinel_witness :
  arrays mem_no_sentinel !! 0%nat = Some [] /\
  constructor None (Some 0%nat) mem_no_sentinel =
    Ok tt (mem_no_sentinel, {| _storage := 0%nat; size := -1; _count := -1 |}) /\
  removeMax (mem_no_sentinel, {| _storage := 0%nat; size := -1; _count := -1 |}) =
    Throw TypeError
      ({| arrays := [[VUndefined; VUndefined]]; records := [] |},
       {| _storage := 0%nat; size := -1; _count := -2 |}).
Proof.
  split; [reflexivity|].
  destruct (fromArray_without_sentinel None mem_no_sentinel 0%nat eq_refl)
    as (Hctor & _ & _ & _ & Hrem).
  split; [exact Hctor|exact Hrem].
Defined.

(** X16 at a heap that holds two records. *)
Lemma drain_returns_every_record_witness :
  wf world_full /\
  exists out w',
    drain 2 world_full = Ok out w' /\
    _count (snd w') = 0 /\
    out ≡ₚ [(None, Some 7); (None, Some 4)].
Proof.
  split; [exact wf_world_full|].
  destruct (drain_returns_every_record world_full wf_world_full)
    as (out & w' & Hrun & _ & Hc & _ & Hperm).
  exists out, w'. split; [exact Hrun|]. split; [exact Hc|exact Hperm].
Defined.

(** X17 at the heap built from [[_, 7, 4]]. *)
Lemma reachable_well_formed_witness :
  reachable record_array world_full /\
  0 <= _count (snd world_full) <= size (snd world_full) /\
  Z.of_nat (length (storage_of world_full)) = size (snd world_full) + 1.
Proof.
  split; [exact reachable_world_full|].
  destruct (reachable_well_formed world_full reachable_world_full) as (Hn & Hlen & _).
  split; [exact Hn|exact Hlen].
Defined.

(** X18 at a heap of capacity 3 that holds two records. *)
Lemma insert_reuses_record_witness :
  wf world_room /\ _count (snd world_room) < size (snd world_room) /\
  exists l w',
    array_get (storage_of world_room) 3 = VRef l /\
    insert 9 None world_room = Ok tt w' /\
    length (records (fst w')) = 3%nat.
Proof.
  split; [exact wf_world_room|]. split; [simpl; lia|].
  destruct (insert_reuses_record world_room 9 None wf_world_room)
    as (l & w' & Hl & Hrun & Hrs & _); [simpl; lia|].
  exists l, w'. split; [exact Hl|]. split; [exact Hrun|].
  rewrite Hrs, length_insert. reflexivity.
Defined.

End Concrete.
